(** * SyncRepo: the incremental repository cache and its rebuild scheduling

    A shallow embedding of [SRC.py] (the cache, the path filter, the
    debouncer, the watchdog handler and the renderer) and of the event
    handler of [SyncRepo.py], with the properties of the specification
    stated and settled against it.

    Conventions.
    - A Python [str] is a Rocq [string]; the order on strings is the
      lexicographic order on characters, which is Python's.
    - The dict [_file_cache] is a [gmap string string].
    - A Python exception is a value [Raise e] of the [result] type below;
      [try/except] is a match on it.
    - The file system, the clock and the regular-expression engine are not
      part of the repository. The file system is a function from paths to
      what is found there, and a tree of names for [os.walk]; a time (the
      float of [time.time()], the interval of a [threading.Timer]) is a
      rational number of seconds; [re.search] and [os.getcwd()] are
      parameters.
    - The functions of [os.path] are those of [posixpath].
    - The scan of [load_initial_cache] carries, beside the cache, the list
      of its accesses to the file system, in order: a directory listed by
      [os.walk], a file opened.

    The definitions come first, the properties after them. *)

From Stdlib Require Import Ascii QArith Lqa.
From stdpp Require Import base option list sorting strings gmap fin_maps.

(** ** Exceptions *)

Inductive exn : Type :=
| ValueError
| KeyError
| OSError
| UnicodeDecodeError.

Inductive result (A : Type) : Type :=
| Ok (a : A)
| Raise (e : exn).
Arguments Ok {A} a.
Arguments Raise {A} e.

(** A method of an object whose state has type [S]: it may raise, and what
    it did to the state before raising stays done. *)
Definition M (S A : Type) : Type := S → result A * S.

Definition ret {S A} (a : A) : M S A := λ st, (Ok a, st).

Definition bind {S A B} (m : M S A) (k : A → M S B) : M S B :=
  λ st, match m st with
        | (Ok a, st') => k a st'
        | (Raise e, st') => (Raise e, st')
        end.

(** A computation that may raise and does not touch the state. *)
Definition lift {S A} (r : result A) : M S A := λ st, (r, st).

Definition get {S} : M S S := λ st, (Ok st, st).
Definition put {S} (st : S) : M S () := λ _, (Ok (), st).

Notation "'let!' x ':=' m 'in' k" := (bind m (λ x, k))
  (at level 10, x name, m at level 100, k at level 200).
Notation "m1 ';;' m2" := (bind m1 (λ _, m2))
  (at level 100, m2 at level 200, right associativity).

(** [for x in xs: body(x)] *)
Fixpoint for_each {S A} (xs : list A) (body : A → M S ()) : M S () :=
  match xs with
  | [] => ret ()
  | x :: xs' => body x ;; for_each xs' body
  end.

Definition raises {A} (r : result A) : bool :=
  match r with Ok _ => false | Raise _ => true end.

(** ** Python strings *)

Module Py.

(** [s.startswith(p)] *)
Fixpoint startswith (s p : string) : bool :=
  match p, s with
  | "", _ => true
  | String _ _, "" => false
  | String b p', String a s' => if Ascii.eqb a b then startswith s' p' else false
  end.

(** [s.endswith(p)]: [s] is [p], or what follows its first character ends
    with [p]. *)
Fixpoint endswith (s p : string) : bool :=
  String.eqb s p
  || match s with
     | "" => false
     | String _ s' => endswith s' p
     end.

(** [x in xs] for a list or tuple of strings *)
Definition contains (x : string) (xs : list string) : bool :=
  bool_decide (x ∈ xs).

(** [any(f(x) for x in xs)] *)
Definition any {A} (f : A → bool) (xs : list A) : bool := existsb f xs.

(** [s.split(sep)] for a one-character separator *)
Fixpoint split (sep : Ascii.ascii) (s : string) : list string :=
  match s with
  | "" => [""]
  | String c s' =>
      if Ascii.eqb c sep then "" :: split sep s'
      else match split sep s' with
           | [] => [String c ""]
           | w :: ws => String c w :: ws
           end
  end.

(** [sep.join(xs)] *)
Fixpoint join (sep : string) (xs : list string) : string :=
  match xs with
  | [] => ""
  | x :: xs' =>
      match xs' with
      | [] => x
      | _ :: _ => x +:+ sep +:+ join sep xs'
      end
  end.

(** [sorted(xs)] and [xs.sort()] on strings *)
Definition sorted (xs : list string) : list string := merge_sort String.le xs.

End Py.

(** ** [os.path] on POSIX *)

Module OsPath.

Definition sep : Ascii.ascii := "/"%char.

(** [isabs(p)] is [p.startswith('/')]. *)
Definition isabs (p : string) : bool := Py.startswith p "/".

(** [join(a, b)]: an absolute [b] replaces [a]; a separator is put between
    the two unless [a] is empty or already ends with one. *)
Definition join (a b : string) : string :=
  if Py.startswith b "/" then b
  else if bool_decide (a = "") || Py.endswith a "/" then a +:+ b
  else a +:+ "/" +:+ b.

(** [join(a, *p)] *)
Definition join_all (a : string) (p : list string) : string :=
  fold_left join p a.

(** [basename(p)] is [p[p.rfind('/') + 1:]], the text after the last
    separator. *)
Definition basename (p : string) : string :=
  List.last (Py.split sep p) "".

(** The longest common prefix of two lists. [commonpath] and [relpath] take
    it between the smallest and the largest of the lists they are given;
    of two lists that is the longest common prefix of the two. *)
Fixpoint common_prefix (l1 l2 : list string) : list string :=
  match l1, l2 with
  | x :: l1', y :: l2' =>
      if bool_decide (x = y) then x :: common_prefix l1' l2' else []
  | _, _ => []
  end.

Definition is_name (c : string) : bool :=
  negb (bool_decide (c = "")) && negb (bool_decide (c = ".")).

(** [commonpath([p1, p2])]: the components of each path, without the empty
    ones and without ".", then the common prefix, joined again; mixing an
    absolute and a relative path raises [ValueError]. *)
Definition commonpath (p1 p2 : string) : result string :=
  if Bool.eqb (isabs p1) (isabs p2) then
    let s1 := List.filter is_name (Py.split sep p1) in
    let s2 := List.filter is_name (Py.split sep p2) in
    let common := common_prefix s1 s2 in
    Ok ((if isabs p1 then "/" else "") +:+ Py.join "/" common)
  else Raise ValueError.

(** The loop of [normpath] over the components: "" and "." are dropped,
    ".." removes the component before it, except at the start of a
    relative path or after another "..". *)
Fixpoint norm_comps (initial_slashes : bool) (new_comps : list string)
    (comps : list string) : list string :=
  match comps with
  | [] => new_comps
  | comp :: comps' =>
      if bool_decide (comp = "") || bool_decide (comp = ".") then
        norm_comps initial_slashes new_comps comps'
      else if negb (bool_decide (comp = ".."))
              || (negb initial_slashes && bool_decide (new_comps = []))
              || bool_decide (List.last new_comps "" = "..") && negb (bool_decide (new_comps = []))
      then norm_comps initial_slashes (new_comps ++ [comp]) comps'
      else norm_comps initial_slashes (removelast new_comps) comps'
  end.

(** [normpath(path)] *)
Definition normpath (path : string) : string :=
  if bool_decide (path = "") then "." else
  let initial_slashes := Py.startswith path "/" in
  let two := Py.startswith path "//" && negb (Py.startswith path "///") in
  let comps := norm_comps initial_slashes [] (Py.split sep path) in
  let path' := Py.join "/" comps in
  let path'' :=
    if initial_slashes then (if two then "//" else "/") +:+ path' else path' in
  if bool_decide (path'' = "") then "." else path''.

(** [abspath(path)], with [cwd] the result of [os.getcwd()] *)
Definition abspath (cwd path : string) : string :=
  normpath (if isabs path then path else join cwd path).

Definition nonempty (c : string) : bool := negb (bool_decide (c = "")).

(** [relpath(path, start)]: the components of the two absolute paths, ".."
    for each component of [start] after the common ones, then the remaining
    components of [path], joined. *)
Definition relpath (cwd path start : string) : result string :=
  if bool_decide (path = "") then Raise ValueError else
  let start_list := List.filter nonempty (Py.split sep (abspath cwd start)) in
  let path_list := List.filter nonempty (Py.split sep (abspath cwd path)) in
  let i := length (common_prefix start_list path_list) in
  let rel_list := replicate (length start_list - i) ".." ++ drop i path_list in
  match rel_list with
  | [] => Ok "."
  | a :: p => Ok (join_all a p)
  end.

End OsPath.

(** ** The file system seen by the program *)

(** What [os.path.exists] and [open(...).read()] find at a path: nothing, a
    file whose opening, reading or decoding raises, or a text file. *)
Inductive file_state : Type :=
| Missing
| Unreadable (e : exn)
| Readable (content : string).

Definition disk : Type := string → file_state.

(** [os.path.exists(path)] *)
Definition path_exists (d : disk) (path : string) : bool :=
  match d path with
  | Missing => false
  | _ => true
  end.

(** [with open(path, 'r', encoding='utf-8') as f: f.read()] *)
Definition open_read (d : disk) (path : string) : result string :=
  match d path with
  | Missing => Raise OSError
  | Unreadable e => Raise e
  | Readable content => Ok content
  end.

#[local] Unset Elimination Schemes.
(** What [os.scandir] finds below a directory: the names of the entries, and
    for a directory its own entries. The induction principle, with the
    property known of every entry, is [node_ind] below. *)
Inductive node : Type :=
| File
| Dir (entries : list (string * node)).
#[local] Set Elimination Schemes.

Definition is_dir (n : node) : bool :=
  match n with
  | File => false
  | Dir _ => true
  end.

Definition dir_names (entries : list (string * node)) : list string :=
  (List.filter (λ e, is_dir e.2) entries).*1.

Definition nondir_names (entries : list (string * node)) : list string :=
  (List.filter (λ e, negb (is_dir e.2)) entries).*1.

(** [assoc name l] is the first entry of [l] called [name]. *)
Fixpoint assoc {A} (name : string) (l : list (string * A)) : option A :=
  match l with
  | [] => None
  | (k, a) :: l' => if bool_decide (k = name) then Some a else assoc name l'
  end.

(** [os.walk(top)], top-down: the triples [(root, dirs, files)] it yields.
    The caller may change [dirs] in place before asking for the next triple,
    and the walk then descends into what the caller left, in that order:
    [edit] is that change. A name that is not a directory is skipped (the
    error of [scandir] is ignored). *)
Fixpoint os_walk (edit : list string → list string) (n : node) (top : string)
    {struct n} : list (string * list string * list string) :=
  match n with
  | File => []
  | Dir entries =>
      let dirs := dir_names entries in
      let nondirs := nondir_names entries in
      let below := (λ e : string * node, (e.1, os_walk edit e.2)) <$> entries in
      (top, dirs, nondirs)
      :: flat_map
           (λ dirname,
              match assoc dirname below with
              | Some walk => walk (OsPath.join top dirname)
              | None => []
              end)
           (edit dirs)
  end.

(** What a scan does to the file system: [os.walk] lists a directory, and
    then yields it; [open] opens a file. *)
Inductive access : Type :=
| Listed (root : string)
| Opened (file_path : string).

(** ** Python dicts *)

(** [del m[k]] raises [KeyError] on a key that is not there. *)
Definition dict_del (k : string) : M (gmap string string) () :=
  λ m, match m !! k with
       | Some _ => (Ok (), delete k m)
       | None => (Raise KeyError, m)
       end.

(** [m[k] = v] *)
Definition dict_set (k v : string) : M (gmap string string) () :=
  λ m, (Ok (), <[k := v]> m).

(** [m.clear()] *)
Definition dict_clear : M (gmap string string) () := put ∅.

Definition nl : string := String "010"%char "".

Definition Qlt_bool (x y : Q) : bool := negb (Qle_bool y x).

(** * SRC.py *)

Module SRC.

Section Program.

(** [re.search(pattern, s)] found a match. *)
Variable re_search : string → string → bool.
(** [os.getcwd()] *)
Variable cwd : string.

(** *** class RepositoryCache *)

(** [RepositoryCache.__init__] *)
Definition new_cache : gmap string string := ∅.

Definition _should_include (filename : string)
    (extensions excludes sensitive_files : list string)
    (regex_patterns : option (list string)) : bool :=
  if Py.contains filename sensitive_files then false
  else if negb (Py.any (λ ext, Py.endswith filename ext) extensions) then false
  else if Py.any (λ exc, Py.endswith filename exc) excludes then false
  else match regex_patterns with
       | Some (pattern :: patterns) =>
           negb (Py.any (λ pattern, re_search pattern filename) (pattern :: patterns))
       | _ => true
       end.

Definition _read_and_store_file (d : disk) (file_path relative_path : string)
    : M (gmap string string) () :=
  match open_read d file_path with
  | Ok content => dict_set relative_path content
  | Raise e => ret ()
  end.

Definition remove_file (relative_path : string) : M (gmap string string) () :=
  let! _file_cache := get in
  if bool_decide (is_Some (_file_cache !! relative_path))
  then dict_del relative_path
  else ret ().

Definition update_file (d : disk) (file_path relative_path : string)
    : M (gmap string string) () :=
  if negb (path_exists d file_path) then remove_file relative_path
  else _read_and_store_file d file_path relative_path.

(** The two statements of the loop body on [dirs]:
    [dirs[:] = [d for d in dirs if d not in exclude_dirs]] and [dirs.sort()] *)
Definition prune_dirs (exclude_dirs dirs : list string) : list string :=
  Py.sorted (List.filter (λ d, negb (Py.contains d exclude_dirs)) dirs).

(** The cache during a scan, with the accesses made to the file system so
    far, in the order in which they were made. *)
Record Scan : Type := {
  cache : gmap string string;
  accesses : list access;
}.

Definition made (a : access) : M Scan () :=
  λ s, (Ok (), {| cache := cache s; accesses := accesses s ++ [a] |}).

(** A method of [self._file_cache], or one that only changes it *)
Definition on_file_cache (m : M (gmap string string) ()) : M Scan () :=
  λ s, let '(r, c) := m (cache s) in (r, {| cache := c; accesses := accesses s |}).

(** [for root, dirs, files in os.walk(directory)], the change of [dirs]
    being the one [os_walk] was given: a directory has been listed when its
    triple is yielded, and the directories below it are listed after the
    body has run on it. *)
Definition for_walk (walk : list (string * list string * list string))
    (body : string → list string → list string → M Scan ()) : M Scan () :=
  for_each walk (λ '(root, dirs, files), made (Listed root) ;; body root dirs files).

(** The rest of the loop body: [files.sort()] and the loop over [files].
    [_read_and_store_file] opens [file_path]. *)
Definition load_files (d : disk) (directory : string)
    (extensions excludes sensitive_files : list string)
    (regex_patterns : option (list string)) (root : string) (files : list string)
    : M Scan () :=
  for_each (Py.sorted files) (λ file,
    if _should_include file extensions excludes sensitive_files regex_patterns then
      let file_path := OsPath.join root file in
      let! relative_path := lift (OsPath.relpath cwd file_path directory) in
      made (Opened file_path) ;;
      on_file_cache (_read_and_store_file d file_path relative_path)
    else ret ()).

(** [load_initial_cache(...)], with its accesses to the file system. [tree]
    is what the walk finds at [directory]. *)
Definition load_initial_cache_scan (tree : node) (d : disk) (directory : string)
    (extensions excludes exclude_dirs sensitive_files : list string)
    (regex_patterns : option (list string)) : M Scan () :=
  on_file_cache dict_clear ;;
  for_walk (os_walk (prune_dirs exclude_dirs) tree directory) (λ root dirs files,
    load_files d directory extensions excludes sensitive_files regex_patterns
      root files).

(** What [load_initial_cache(...)] does to the cache. *)
Definition load_initial_cache (tree : node) (d : disk) (directory : string)
    (extensions excludes exclude_dirs sensitive_files : list string)
    (regex_patterns : option (list string)) : M (gmap string string) () :=
  λ _file_cache,
    let '(r, s) :=
      load_initial_cache_scan tree d directory extensions excludes exclude_dirs
        sensitive_files regex_patterns
        {| cache := _file_cache; accesses := [] |} in
    (r, cache s).

(** The keys of a dict come in insertion order, which [sorted] forgets. *)
Definition get_all_files_sorted (_file_cache : gmap string string) : list string :=
  Py.sorted (map_to_list _file_cache).*1.

Definition get_file_content (_file_cache : gmap string string)
    (relative_path : string) : string :=
  default "" (_file_cache !! relative_path).

(** *** The renderer *)

Definition generate_markdown_output (repo_cache : gmap string string)
    (directory tree_output : string) : string :=
  let code_output :=
    fold_left
      (λ code_output relative_path,
         let file_content := get_file_content repo_cache relative_path in
         (code_output +:+ ("----- FILE: " +:+ relative_path +:+ " -----" +:+ nl))
         +:+ ("```" +:+ nl +:+ file_content +:+ nl +:+ "```" +:+ nl +:+ nl))
      (get_all_files_sorted repo_cache) "" in
  "========== TREE OUTPUT ==========" +:+ nl
  +:+ tree_output
  +:+ nl +:+ nl +:+ "========== CODE OUTPUT ==========" +:+ nl +:+ nl
  +:+ code_output.

(** *** class Debouncer *)

(** A [threading.Timer] that was started: the time at which its thread
    wakes up, and its [finished] event, which [cancel()] sets and which the
    thread sets after it has run. The thread calls the function when it
    wakes up and finds [finished] unset. *)
Record Timer : Type := {
  deadline : Q;
  finished : bool;
}.

Definition Timer_cancel (t : Timer) : Timer :=
  {| deadline := deadline t; finished := true |}.

(** The debouncer: its fields [wait_time] and [_timer] (a reference into
    the timer objects created so far), these objects, and the times at
    which [callback] has been called. [_lock] makes [trigger] and [cancel]
    atomic, as they are here. *)
Record Debouncer : Type := {
  wait_time : Q;
  _timer : option nat;
  timers : list Timer;
  calls : list Q;
}.

(** [Debouncer.__init__] *)
Definition new_debouncer (wait_time : Q) : Debouncer :=
  {| wait_time := wait_time; _timer := None; timers := []; calls := [] |}.

(** [trigger()], called at time [now] *)
Definition trigger (now : Q) (self : Debouncer) : Debouncer :=
  let timers1 :=
    match _timer self with
    | Some i => alter Timer_cancel i (timers self)
    | None => timers self
    end in
  {| wait_time := wait_time self;
     _timer := Some (length timers1);
     timers := timers1 ++ [{| deadline := (now + wait_time self)%Q; finished := false |}];
     calls := calls self |}.

(** [cancel()] *)
Definition cancel (self : Debouncer) : Debouncer :=
  match _timer self with
  | Some i =>
      {| wait_time := wait_time self;
         _timer := None;
         timers := alter Timer_cancel i (timers self);
         calls := calls self |}
  | None => self
  end.

(** The timer threads up to time [now]: every timer whose deadline has
    come and whose [finished] is unset calls the callback and sets it. *)
Definition due (now : Q) (t : Timer) : bool :=
  negb (finished t) && Qle_bool (deadline t) now.

Definition elapse (now : Q) (self : Debouncer) : Debouncer :=
  {| wait_time := wait_time self;
     _timer := _timer self;
     timers := (λ t, if due now t then Timer_cancel t else t) <$> timers self;
     calls := calls self ++ (deadline <$> List.filter (due now) (timers self)) |}.

(** A burst: [trigger()] is called at each of the times, in turn, the timer
    threads running in between. *)
Fixpoint burst (times : list Q) (self : Debouncer) : Debouncer :=
  match times with
  | [] => self
  | now :: times' => burst times' (trigger now (elapse now self))
  end.

(** *** class ChangeHandler *)

Inductive event : Type :=
| FileSystemEvent (src_path : string) (is_directory : bool)
| FileSystemMovedEvent (src_path dest_path : string) (is_directory : bool).

Definition src_path (ev : event) : string :=
  match ev with
  | FileSystemEvent p _ => p
  | FileSystemMovedEvent p _ _ => p
  end.

Definition is_directory (ev : event) : bool :=
  match ev with
  | FileSystemEvent _ b => b
  | FileSystemMovedEvent _ _ b => b
  end.

(** The configuration fields of the handler, fixed by [__init__]. *)
Record ChangeHandler : Type := {
  directory : string;
  extensions : list string;
  excludes : list string;
  exclude_dirs : list string;
  sensitive_files : list string;
  regex_patterns : list string;
}.

(** The objects the handler mutates. *)
Record State : Type := {
  repo_cache : gmap string string;
  debouncer : Debouncer;
}.

(** A method of [self.repo_cache] *)
Definition on_cache (m : M (gmap string string) ()) : M State () :=
  λ st, let '(r, c) := m (repo_cache st) in
        (r, {| repo_cache := c; debouncer := debouncer st |}).

(** [self.debouncer.trigger()] *)
Definition debouncer_trigger (now : Q) : M State () :=
  λ st, (Ok (), {| repo_cache := repo_cache st;
                   debouncer := trigger now (debouncer st) |}).

(** The loop over [self.exclude_dirs] of [_is_relevant_file]: [Ok true] is
    its [return False]. *)
Fixpoint in_excluded_dir (directory file_path : string) (eds : list string)
    : result bool :=
  match eds with
  | [] => Ok false
  | ed :: eds' =>
      let abs_excl := OsPath.join directory ed in
      match OsPath.commonpath file_path abs_excl with
      | Ok c =>
          if bool_decide (c = abs_excl) then Ok true
          else in_excluded_dir directory file_path eds'
      | Raise e => Raise e
      end
  end.

Definition _is_relevant_file (self : ChangeHandler) (file_path : string)
    : result bool :=
  let file_name := OsPath.basename file_path in
  if Py.contains file_name (sensitive_files self) then Ok false
  else if negb (Py.any (λ ext, Py.endswith file_name ext) (extensions self)) then Ok false
  else if Py.any (λ x, Py.endswith file_name x) (excludes self) then Ok false
  else match in_excluded_dir (directory self) file_path (exclude_dirs self) with
       | Ok true => Ok false
       | Ok false =>
           if Py.any (λ pattern, re_search pattern file_name) (regex_patterns self)
           then Ok false
           else Ok true
       | Raise e => Raise e
       end.

Definition _handle_change (self : ChangeHandler) (d : disk) (now : Q)
    (file_path : string) : M State () :=
  let! rel_path := lift (OsPath.relpath cwd file_path (directory self)) in
  (if path_exists d file_path
   then on_cache (update_file d file_path rel_path)
   else ret ()) ;;
  debouncer_trigger now.

Definition on_created (self : ChangeHandler) (d : disk) (now : Q) (ev : event)
    : M State () :=
  if is_directory ev then ret () else
  let! relevant := lift (_is_relevant_file self (src_path ev)) in
  if relevant : bool then _handle_change self d now (src_path ev) else ret ().

Definition on_modified (self : ChangeHandler) (d : disk) (now : Q) (ev : event)
    : M State () :=
  if is_directory ev then ret () else
  let! relevant := lift (_is_relevant_file self (src_path ev)) in
  if relevant : bool then _handle_change self d now (src_path ev) else ret ().

Definition on_deleted (self : ChangeHandler) (now : Q) (ev : event) : M State () :=
  if is_directory ev then ret () else
  let! relevant := lift (_is_relevant_file self (src_path ev)) in
  if relevant : bool then
    let! rel_path := lift (OsPath.relpath cwd (src_path ev) (directory self)) in
    on_cache (remove_file rel_path) ;;
    debouncer_trigger now
  else ret ().

Definition on_moved (self : ChangeHandler) (d : disk) (now : Q) (ev : event)
    : M State () :=
  match ev with
  | FileSystemMovedEvent old_path new_path false =>
      let! old_relevant := lift (_is_relevant_file self old_path) in
      (if old_relevant : bool then
         let! old_rel := lift (OsPath.relpath cwd old_path (directory self)) in
         on_cache (remove_file old_rel)
       else ret ()) ;;
      let! new_relevant := lift (_is_relevant_file self new_path) in
      if new_relevant : bool then _handle_change self d now new_path else ret ()
  | _ => ret ()
  end.

End Program.

End SRC.

(** * SyncRepo.py *)

Module SyncRepo.

(** The handler: its fields [debounce_time] and [last_update], and the
    times at which it has called [update_code_base]. *)
Record ChangeHandler : Type := {
  debounce_time : Q;
  last_update : Q;
  updates : list Q;
}.

(** [ChangeHandler.__init__], at time [now] *)
Definition new_handler (now : Q) : ChangeHandler :=
  {| debounce_time := 5; last_update := now; updates := [] |}.

(** [on_any_event(event)], with [current_time] the value of [time.time()] *)
Definition on_any_event (current_time : Q) (self : ChangeHandler) : ChangeHandler :=
  if Qlt_bool (current_time - last_update self) (debounce_time self) then self
  else {| debounce_time := debounce_time self;
          last_update := current_time;
          updates := updates self ++ [current_time] |}.

(** The events arriving at the given times, in turn *)
Definition on_events (times : list Q) (self : ChangeHandler) : ChangeHandler :=
  fold_left (λ self current_time, on_any_event current_time self) times self.

End SyncRepo.

(** * The rest of SRC.py: the tree listing, the rebuild and the callback *)

Module Rebuild.

(** What [subprocess.run(..., capture_output=True, text=True)] returns *)
Record CompletedProcess : Type := {
  returncode : Z;
  stdout : string;
  stderr : string;
}.

(** [get_tree_structure(directory)], with [run] what
    [subprocess.run(['tree', directory], ...)] gave: a completed process, or
    an exception. [SyncRepo.py] has the same function. *)
Definition get_tree_structure (run : result CompletedProcess) : string :=
  match run with
  | Ok result => if (returncode result =? 0)%Z then stdout result else ""
  | Raise _ => ""
  end.

(** [write_markdown_output(output_file, combined_output, enc)]. The state is
    the list of the documents written to [output_file] so far; [opened] is
    what opening and writing the file gave, and [encode text] is
    [len(enc.encode(text))], or the exception of the tokenizer, which is not
    caught. The figures are only printed and are left out. *)
Definition write_markdown_output (opened : result ()) (encode : string → result nat)
    (combined_output : string) : M (list string) () :=
  (match opened with
   | Ok _ => λ written, (Ok (), written ++ [combined_output])
   | Raise _ => ret ()
   end) ;;
  let! token_count := lift (encode combined_output) in
  ret ().

(** [update_code_base(directory_path, repo_cache, output_file, enc)] *)
Definition update_code_base (run : result CompletedProcess) (opened : result ())
    (encode : string → result nat) (directory_path : string)
    (repo_cache : gmap string string) : M (list string) () :=
  let tree_output := get_tree_structure run in
  let tree_output :=
    if bool_decide (tree_output = "") then "Could not generate tree structure."
    else tree_output in
  let combined_output :=
    SRC.generate_markdown_output repo_cache directory_path tree_output in
  write_markdown_output opened encode combined_output.

(** The handler with its output file: the objects the handler mutates and
    the documents written so far. *)
Record System : Type := {
  state : SRC.State;
  written : list string;
}.

(** [ChangeHandler._on_debounced_update], run by a timer thread: an
    exception ends that thread and nothing else. *)
Definition _on_debounced_update (run : result CompletedProcess) (opened : result ())
    (encode : string → result nat) (self : SRC.ChangeHandler) (sys : System)
    : System :=
  {| state := state sys;
     written :=
       (update_code_base run opened encode (SRC.directory self)
          (SRC.repo_cache (state sys)) (written sys)).2 |}.

(** The timer threads up to time [now], as [SRC.elapse], each due timer
    calling the callback. *)
Definition system_elapse (run : result CompletedProcess) (opened : result ())
    (encode : string → result nat) (self : SRC.ChangeHandler) (now : Q)
    (sys : System) : System :=
  let deb := SRC.debouncer (state sys) in
  fold_left
    (λ sys _, _on_debounced_update run opened encode self sys)
    (List.filter (SRC.due now) (SRC.timers deb))
    {| state := {| SRC.repo_cache := SRC.repo_cache (state sys);
                   SRC.debouncer := SRC.elapse now deb |};
       written := written sys |}.

End Rebuild.

(** * The rest of SyncRepo.py: the scan *)

Module SyncRepoScan.

Section Program.

(** [os.getcwd()] *)
Variable cwd : string.

(** [read_files_in_directory(...)]: the state is the local [all_code], which
    the function returns. [tree] is what the walk finds at [directory]. *)
Definition read_files_in_directory (tree : node) (d : disk) (directory : string)
    (extensions excludes exclude_dirs sensitive_files : list string)
    : M string () :=
  put "" ;;
  for_each
    (os_walk
       (λ dirs, Py.sorted (List.filter (λ d, negb (Py.contains d exclude_dirs)) dirs))
       tree directory)
    (λ '(root, dirs, files),
       for_each (Py.sorted files) (λ file,
         if Py.contains file sensitive_files then ret ()
         else if Py.any (λ ext, Py.endswith file ext) extensions then
           if Py.any (λ exc, Py.endswith file exc) excludes then ret ()
           else
             let file_path := OsPath.join root file in
             let! relative_path := lift (OsPath.relpath cwd file_path directory) in
             match open_read d file_path with
             | Ok file_content =>
                 let file_marker :=
                   "----- FILE: " +:+ relative_path +:+ " -----" +:+ nl in
                 λ all_code,
                   (Ok (),
                    all_code
                    +:+ (file_marker +:+ nl +:+ "```" +:+ nl +:+ file_content
                         +:+ nl +:+ "```" +:+ nl))
             | Raise _ => ret ()
             end
         else ret ())).

End Program.

End SyncRepoScan.

(** * Well-formed directory trees *)

Fixpoint no_sep (s : string) : bool :=
  match s with
  | "" => true
  | String c s' => negb (Ascii.eqb c "/") && no_sep s'
  end.

(** The name of a directory entry: not empty, not "." or "..", and without
    a separator. *)
Definition valid_name (name : string) : bool :=
  negb (bool_decide (name = "")) && negb (bool_decide (name = "."))
  && negb (bool_decide (name = "..")) && no_sep name.

Fixpoint wf_node (n : node) : bool :=
  match n with
  | File => true
  | Dir entries => forallb (λ e : string * node, valid_name e.1 && wf_node e.2) entries
  end.

(** * Bursts *)

(** The calls at [times] follow a call at [prev], each coming after the one
    before it by less than [wait]. *)
Fixpoint spaced (wait prev : Q) (times : list Q) : Prop :=
  match times with
  | [] => True
  | t :: times' => (prev <= t ∧ t < prev + wait)%Q ∧ spaced wait t times'
  end.

(** The debouncer at rest: every timer it has created is finished. *)
Definition idle (deb : SRC.Debouncer) : Prop :=
  Forall (λ tm, SRC.finished tm = true) (SRC.timers deb).

(** The state of the debouncer between two calls of a burst: the callback
    has not been called since the burst began (its calls are still [cs]),
    every timer but the last is finished, and the last, which [_timer]
    refers to, waits for [t + wait]. *)
Definition armed (wait : Q) (cs : list Q) (t : Q) (deb : SRC.Debouncer) : Prop :=
  ∃ old : list SRC.Timer,
    Forall (λ tm, SRC.finished tm = true) old
    ∧ deb = {| SRC.wait_time := wait;
               SRC._timer := Some (length old);
               SRC.timers := old ++ [{| SRC.deadline := (t + wait)%Q;
                                        SRC.finished := false |}];
               SRC.calls := cs |}.

(** * The specification: the document format and the scan *)

(** [str_lt s1 s2] is [s1 < s2] on Python strings. *)
Definition str_lt (s1 s2 : string) : Prop := String.compare s1 s2 = Lt.

Module Spec.

(** A marker line, then the content between two fence lines, then an empty
    line. *)
Definition file_block (file : string * string) : string :=
  "----- FILE: " +:+ file.1 +:+ " -----" +:+ nl
  +:+ "```" +:+ nl
  +:+ file.2 +:+ nl
  +:+ "```" +:+ nl
  +:+ nl.

Fixpoint file_blocks (files : list (string * string)) : string :=
  match files with
  | [] => ""
  | file :: files' => file_block file +:+ file_blocks files'
  end.

Definition document (tree_output : string) (files : list (string * string)) : string :=
  "========== TREE OUTPUT ==========" +:+ nl
  +:+ tree_output +:+ nl
  +:+ nl
  +:+ "========== CODE OUTPUT ==========" +:+ nl
  +:+ nl
  +:+ file_blocks files.

(** The files visited, each as the list of names leading to it from the
    root, in the order of the visit: in a directory its files first, in
    ascending order, then its sub-directories, in ascending order, those with
    an excluded name left out and never entered. *)
Fixpoint visited (exclude_dirs : list string) (n : node) (prefix : list string)
    {struct n} : list (list string) :=
  match n with
  | File => []
  | Dir entries =>
      let below :=
        (λ e : string * node, (e.1, visited exclude_dirs e.2)) <$> entries in
      ((λ file, prefix ++ [file]) <$> Py.sorted (nondir_names entries))
      ++ flat_map
           (λ dirname,
              match assoc dirname below with
              | Some visit => visit (prefix ++ [dirname])
              | None => []
              end)
           (Py.sorted
              (List.filter (λ d, negb (Py.contains d exclude_dirs)) (dir_names entries)))
  end.

(** The accesses of the scan: a directory is listed, its files that pass the
    filter are opened, in ascending order, and then its sub-directories are
    entered, in ascending order, those with an excluded name left out: they
    are not listed, and nothing below them is listed or opened. *)
Fixpoint accesses (included : string → bool) (exclude_dirs : list string)
    (directory : string) (n : node) (prefix : list string) {struct n}
    : list access :=
  match n with
  | File => []
  | Dir entries =>
      let below :=
        (λ e : string * node,
           (e.1, accesses included exclude_dirs directory e.2)) <$> entries in
      Listed (OsPath.join_all directory prefix)
      :: ((λ file, Opened (OsPath.join_all directory (prefix ++ [file])))
            <$> List.filter included (Py.sorted (nondir_names entries)))
      ++ flat_map
           (λ dirname,
              match assoc dirname below with
              | Some scan => scan (prefix ++ [dirname])
              | None => []
              end)
           (Py.sorted
              (List.filter (λ d, negb (Py.contains d exclude_dirs)) (dir_names entries)))
  end.

(** A visited file that passes the filter and can be read is stored under
    its names joined by "/"; any other leaves the cache as it is. *)
Definition store (included : string → bool) (d : disk) (directory : string)
    (c : gmap string string) (path : list string) : gmap string string :=
  if included (List.last path "") then
    match open_read d (OsPath.join_all directory path) with
    | Ok content => <[Py.join "/" path := content]> c
    | Raise _ => c
    end
  else c.

End Spec.

(** * Notions for the properties of the code *)

(** The absolute path made of the given components. *)
Definition clean_abs (comps : list string) : string := "/" +:+ Py.join "/" comps.

(** The callbacks made while [trigger()] is called at [times] after a call
    at [t]: a call is followed by its callback, [wait] later, when the next
    call does not come before that. *)
Fixpoint fires (wait t : Q) (times : list Q) : list Q :=
  match times with
  | [] => []
  | t' :: times' =>
      (if Qle_bool (t + wait) t' then [(t + wait)%Q] else [])
      ++ fires wait t' times'
  end.

(** Each time comes [gap] or more after the one before it. *)
Fixpoint apart (gap prev : Q) (times : list Q) : Prop :=
  match times with
  | [] => True
  | t :: times' => (prev + gap <= t)%Q ∧ apart gap t times'
  end.

(** The files a scan loads: the visited files that pass the filter and can
    be read, each with its relative path and its content, in the order of the
    visit. *)
Definition loaded (included : string → bool) (d : disk) (directory : string)
    (paths : list (list string)) : list (string * string) :=
  omap
    (λ path,
       if included (List.last path "") then
         match open_read d (OsPath.join_all directory path) with
         | Ok content => Some (Py.join "/" path, content)
         | Raise _ => None
         end
       else None)
    paths.

(** The block of a file in the output of [SyncRepo.py]: an empty line
    follows the marker line, and none the closing fence. *)
Definition legacy_block (file : string * string) : string :=
  "----- FILE: " +:+ file.1 +:+ " -----" +:+ nl
  +:+ nl
  +:+ "```" +:+ nl
  +:+ file.2 +:+ nl
  +:+ "```" +:+ nl.

Fixpoint legacy_blocks (files : list (string * string)) : string :=
  match files with
  | [] => ""
  | file :: files' => legacy_block file +:+ legacy_blocks files'
  end.

(** * Scenarios

    The configuration of [main()] and a few file systems and events, for the
    concrete runs below. *)

Module Scenario.

(** [main()] passes no regular expression, so the engine is never asked. *)
Definition no_regex : string → string → bool := λ _ _, false.

Definition cwd : string := "/home/terry".

Definition main_extensions : list string :=
  [".java"; ".kt"; ".jsp"; ".properties"; ".js"; ".ts"; ".css"; ".json"; ".html"].
Definition main_excludes : list string := [".spec.ts"].
Definition main_exclude_dirs : list string := ["test"; "build"; "target"].
Definition main_sensitive_files : list string :=
  [".env"; "private.key"; "secrets.txt"; "passwords.json"].

(** The handler [main()] builds for the directory [/r]. *)
Definition handler : SRC.ChangeHandler :=
  {| SRC.directory := "/r";
     SRC.extensions := main_extensions;
     SRC.excludes := main_excludes;
     SRC.exclude_dirs := main_exclude_dirs;
     SRC.sensitive_files := main_sensitive_files;
     SRC.regex_patterns := [] |}.

(** A cache holding [a.js], and an idle debouncer with [wait_time=5]. *)
Definition cache_a : gmap string string := {[ "a.js" := "old" ]}.
Definition state_a : SRC.State :=
  {| SRC.repo_cache := cache_a; SRC.debouncer := SRC.new_debouncer 5 |}.

(** [/r/a.js] is on disk and is not valid UTF-8. *)
Definition disk_undecodable : disk :=
  λ p, if bool_decide (p = "/r/a.js") then Unreadable UnicodeDecodeError else Missing.

(** [/r/a.js] has been renamed to [/r/a.txt]. *)
Definition disk_renamed_txt : disk :=
  λ p, if bool_decide (p = "/r/a.txt") then Readable "old" else Missing.

(** Nothing is left on disk. *)
Definition disk_empty : disk := λ _, Missing.

(** Below [/r]: [a/test/f.js], [test/g.js], [mytest-data/h.js] and [top.js]. *)
Definition tree_nested : node :=
  Dir [("top.js", File);
       ("test", Dir [("g.js", File)]);
       ("mytest-data", Dir [("h.js", File)]);
       ("a", Dir [("test", Dir [("f.js", File)])])].

(** Every file is readable and holds its own path. *)
Definition disk_echo : disk := λ p, Readable p.

End Scenario.

(** * Properties *)

(** ** The library functions on a few inputs *)

Example split_ex : Py.split "/" "/r//a/b.js" = [""; "r"; ""; "a"; "b.js"].
Proof. reflexivity. Qed.

Example endswith_ex :
  Py.endswith "c.spec.ts" ".ts" = true ∧ Py.endswith "c.spec.ts" ".js" = false
  ∧ Py.endswith "x" "" = true.
Proof. by vm_compute. Qed.

Example basename_ex :
  OsPath.basename "/r/a/b.js" = "b.js" ∧ OsPath.basename "b.js" = "b.js"
  ∧ OsPath.basename "/r/a/" = "".
Proof. by vm_compute. Qed.

Example join_ex :
  OsPath.join "/r" "test" = "/r/test" ∧ OsPath.join "/r/" "test" = "/r/test"
  ∧ OsPath.join "/r" "/x" = "/x" ∧ OsPath.join "" "x" = "x".
Proof. by vm_compute. Qed.

Example commonpath_ex :
  OsPath.commonpath "/r/a/test/f.js" "/r/test" = Ok "/r"
  ∧ OsPath.commonpath "/r/test/f.js" "/r/test" = Ok "/r/test"
  ∧ OsPath.commonpath "/r/mytest-data/f.js" "/r/test" = Ok "/r"
  ∧ OsPath.commonpath "r/f.js" "/r/test" = Raise ValueError.
Proof. by vm_compute. Qed.

Example normpath_ex :
  OsPath.normpath "/r/./a/../b//c" = "/r/b/c" ∧ OsPath.normpath "a/../.." = ".."
  ∧ OsPath.normpath "//r" = "//r" ∧ OsPath.normpath "///r/" = "/r"
  ∧ OsPath.normpath "/.." = "/".
Proof. by vm_compute. Qed.

Example relpath_ex :
  OsPath.relpath "/home/u" "/r/a/b.js" "/r" = Ok "a/b.js"
  ∧ OsPath.relpath "/home/u" "/r/a.js" "/r/" = Ok "a.js"
  ∧ OsPath.relpath "/home/u" "src/a.js" "src" = Ok "a.js"
  ∧ OsPath.relpath "/home/u" "/x/a.js" "/r" = Ok "../x/a.js"
  ∧ OsPath.relpath "/home/u" "/r" "/r" = Ok "."
  ∧ OsPath.relpath "/home/u" "" "/r" = Raise ValueError.
Proof. by vm_compute. Qed.

Example sorted_ex : Py.sorted ["b/c.ts"; "a.js"; "B"; "a"] = ["B"; "a"; "a.js"; "b/c.ts"].
Proof. by vm_compute. Qed.

Example sorted_keys_ex :
  SRC.get_all_files_sorted (<["b/c.ts" := "y"]> (<["a.js" := "x"]> ∅)) = ["a.js"; "b/c.ts"].
Proof. by vm_compute. Qed.

(** ** The cache *)

Section Cache.

Implicit Types (c : gmap string string) (d : disk).
Implicit Types (p file_path relative_path : string).

(** What [remove_file] does, in one equation: it never raises, and the
    entry is gone. *)
Lemma remove_file_delete p c : SRC.remove_file p c = (Ok (), delete p c).
Proof.
  unfold SRC.remove_file, bind, get, dict_del, ret.
  case_bool_decide as Hin.
  - destruct Hin as [v ->]. done.
  - apply eq_None_not_Some in Hin. by rewrite delete_id.
Qed.

Lemma read_and_store_ok d file_path relative_path c content :
  open_read d file_path = Ok content →
  SRC._read_and_store_file d file_path relative_path c
  = (Ok (), <[relative_path := content]> c).
Proof. unfold SRC._read_and_store_file. by intros ->. Qed.

Lemma read_and_store_fail d file_path relative_path c :
  raises (open_read d file_path) = true →
  SRC._read_and_store_file d file_path relative_path c = (Ok (), c).
Proof.
  unfold SRC._read_and_store_file. by destruct (open_read d file_path).
Qed.

Lemma path_exists_open d file_path :
  path_exists d file_path = false → raises (open_read d file_path) = true.
Proof. unfold path_exists, open_read. by destruct (d file_path). Qed.

(** C9. Removing a path that has no entry leaves the cache as it is and
    does not raise, and so does removing a path a second time: [remove_file]
    is idempotent. *)
Theorem remove_file_idempotent p c :
  c !! p = None →
  SRC.remove_file p c = (Ok (), c)
  ∧ (SRC.remove_file p ;; SRC.remove_file p) c = (Ok (), c)
  ∧ ∀ c0, (SRC.remove_file p ;; SRC.remove_file p) c0 = SRC.remove_file p c0.
Proof.
  intros Hnone. split_and!.
  - by rewrite remove_file_delete, delete_id.
  - unfold bind. by rewrite !remove_file_delete, delete_delete_eq, delete_id.
  - intros c0. unfold bind. by rewrite !remove_file_delete, delete_delete_eq.
Qed.

(** C2, as the code has it. When the read of the file fails, [update_file]
    leaves the cache as it was if the file exists on disk (an entry stored
    before stays, with its old content), and removes the entry if the file
    does not exist. *)
Theorem update_file_read_failure d file_path relative_path c :
  raises (open_read d file_path) = true →
  SRC.update_file d file_path relative_path c
  = (Ok (), if path_exists d file_path then c else delete relative_path c).
Proof.
  intros Hfail. unfold SRC.update_file.
  destruct (path_exists d file_path); simpl.
  - by apply read_and_store_fail.
  - apply remove_file_delete.
Qed.

End Cache.

(** C2, as the specification has it, fails: [a.js] is cached, the file is on
    disk and cannot be decoded; after [update_file] the cache still holds the
    old content of [a.js]. *)
Lemma update_file_undecodable_keeps_stale :
  path_exists Scenario.disk_undecodable "/r/a.js" = true
  ∧ open_read Scenario.disk_undecodable "/r/a.js" = Raise UnicodeDecodeError
  ∧ ∃ c', SRC.update_file Scenario.disk_undecodable "/r/a.js" "a.js" Scenario.cache_a
          = (Ok (), c')
          ∧ c' !! "a.js" = Some "old".
Proof. split_and!; [done..|]. eexists. split; [reflexivity|]. by vm_compute. Qed.

Lemma remove_file_idempotent_witness :
  (∅ : gmap string string) !! "a.js" = None
  ∧ SRC.remove_file "a.js" ∅ = (Ok (), ∅).
Proof.
  split; [done|]. apply (remove_file_idempotent "a.js" ∅). done.
Defined.

Lemma update_file_read_failure_witness :
  raises (open_read Scenario.disk_undecodable "/r/a.js") = true
  ∧ SRC.update_file Scenario.disk_undecodable "/r/a.js" "a.js" Scenario.cache_a
    = (Ok (), Scenario.cache_a).
Proof.
  split; [done|].
  apply (update_file_read_failure Scenario.disk_undecodable "/r/a.js" "a.js" Scenario.cache_a).
  done.
Defined.

(** ** The path filter and the handler *)

Section Handler.

Variable re_search : string → string → bool.
Variable cwd : string.

Implicit Types (self : SRC.ChangeHandler) (d : disk) (st : SRC.State).
Implicit Types (ev : SRC.event) (now : Q).

(** C8. A file name of the sensitive-files list is rejected by both
    filters, the one of the scan and the one of the handler, whatever the
    other rules say. *)
Theorem sensitive_file_excluded (f : string) (sens : list string) :
  f ∈ sens →
  (∀ exts excl rx, SRC._should_include re_search f exts excl sens rx = false)
  ∧ (∀ self file_path,
       SRC.sensitive_files self = sens →
       OsPath.basename file_path = f →
       SRC._is_relevant_file re_search self file_path = Ok false).
Proof.
  intros Hin. split.
  - intros exts excl rx. unfold SRC._should_include, Py.contains.
    by rewrite bool_decide_eq_true_2.
  - intros self file_path Hsens Hbase.
    unfold SRC._is_relevant_file, Py.contains. rewrite Hsens, Hbase.
    by rewrite bool_decide_eq_true_2.
Qed.

(** [_handle_change], once the relative path is known: the file is read
    only if it exists, and the debouncer is triggered once. *)
Lemma handle_change_eq self d now file_path rel st :
  OsPath.relpath cwd file_path (SRC.directory self) = Ok rel →
  SRC._handle_change cwd self d now file_path st
  = (Ok (),
     {| SRC.repo_cache :=
          if path_exists d file_path then
            match open_read d file_path with
            | Ok content => <[rel := content]> (SRC.repo_cache st)
            | Raise _ => SRC.repo_cache st
            end
          else SRC.repo_cache st;
        SRC.debouncer := SRC.trigger now (SRC.debouncer st) |}).
Proof.
  intros Hrel. unfold SRC._handle_change, bind, lift. rewrite Hrel.
  destruct (path_exists d file_path) eqn:Hex.
  - unfold SRC.on_cache, SRC.update_file, SRC._read_and_store_file. rewrite Hex. simpl.
    by destruct (open_read d file_path).
  - by destruct st.
Qed.

(** C3, as the code has it. A created or modified event for a file whose
    path passes the filter reads the file into the cache only if the file
    exists on disk, and triggers the debouncer once in either case; when
    the file has disappeared the cache is left as it was. *)
Theorem on_created_modified_in_scope self d now ev rel st :
  SRC.is_directory ev = false →
  SRC._is_relevant_file re_search self (SRC.src_path ev) = Ok true →
  OsPath.relpath cwd (SRC.src_path ev) (SRC.directory self) = Ok rel →
  SRC.on_modified re_search cwd self d now ev st
  = SRC.on_created re_search cwd self d now ev st
  ∧ SRC.on_created re_search cwd self d now ev st
    = (Ok (),
       {| SRC.repo_cache :=
            if path_exists d (SRC.src_path ev) then
              match open_read d (SRC.src_path ev) with
              | Ok content => <[rel := content]> (SRC.repo_cache st)
              | Raise _ => SRC.repo_cache st
              end
            else SRC.repo_cache st;
          SRC.debouncer := SRC.trigger now (SRC.debouncer st) |}).
Proof.
  intros Hfile Hrelevant Hrel. split; [done|].
  unfold SRC.on_created. rewrite Hfile.
  unfold bind at 1. unfold lift at 1. rewrite Hrelevant.
  by apply handle_change_eq.
Qed.

(** What [on_moved] does for a moved file, both paths being judged by the
    filter: the source entry goes if the source is in scope; the
    destination is handled, and the debouncer triggered, only if the
    destination is in scope. *)
Lemma on_moved_eq self d now old_path new_path old_rel new_rel
    (old_ok new_ok : bool) st :
  SRC._is_relevant_file re_search self old_path = Ok old_ok →
  SRC._is_relevant_file re_search self new_path = Ok new_ok →
  OsPath.relpath cwd old_path (SRC.directory self) = Ok old_rel →
  OsPath.relpath cwd new_path (SRC.directory self) = Ok new_rel →
  SRC.on_moved re_search cwd self d now
    (SRC.FileSystemMovedEvent old_path new_path false) st
  = let c1 := if old_ok then delete old_rel (SRC.repo_cache st)
              else SRC.repo_cache st in
    (Ok (),
     {| SRC.repo_cache :=
          if new_ok && path_exists d new_path then
            match open_read d new_path with
            | Ok content => <[new_rel := content]> c1
            | Raise _ => c1
            end
          else c1;
        SRC.debouncer :=
          if new_ok then SRC.trigger now (SRC.debouncer st)
          else SRC.debouncer st |}).
Proof.
  intros Hold Hnew Hrel_old Hrel_new. unfold SRC.on_moved.
  unfold bind at 1. unfold lift at 1. rewrite Hold.
  unfold bind at 1.
  assert ((if old_ok
           then let! old_rel0 := lift (OsPath.relpath cwd old_path (SRC.directory self))
                in SRC.on_cache (SRC.remove_file old_rel0)
           else ret ()) st
          = (Ok (), {| SRC.repo_cache :=
                         if old_ok then delete old_rel (SRC.repo_cache st)
                         else SRC.repo_cache st;
                       SRC.debouncer := SRC.debouncer st |})) as ->.
  { destruct old_ok; [|by destruct st].
    unfold bind, lift. rewrite Hrel_old. unfold SRC.on_cache.
    by rewrite remove_file_delete. }
  unfold bind at 1. unfold lift at 1. rewrite Hnew.
  destruct new_ok; simpl; [|done].
  by rewrite (handle_change_eq _ _ _ _ new_rel).
Qed.

End Handler.

Lemma sensitive_file_excluded_witness :
  ".env" ∈ [".env"; "private.key"]
  ∧ SRC._should_include Scenario.no_regex ".env" [".env"; ".js"] [] [".env"; "private.key"] None
    = false.
Proof.
  split; [by constructor|].
  apply (sensitive_file_excluded Scenario.no_regex ".env" [".env"; "private.key"]).
  by constructor.
Defined.

(** C3, as the specification has it, fails: [a.js] is cached and passes the
    filter, the file has disappeared from the disk; the modified event
    leaves the entry of [a.js] in the cache, and triggers the debouncer. *)
Lemma on_modified_vanished_keeps_entry :
  SRC._is_relevant_file Scenario.no_regex Scenario.handler "/r/a.js" = Ok true
  ∧ path_exists Scenario.disk_empty "/r/a.js" = false
  ∧ ∃ st', SRC.on_modified Scenario.no_regex Scenario.cwd Scenario.handler
             Scenario.disk_empty 0 (SRC.FileSystemEvent "/r/a.js" false) Scenario.state_a
           = (Ok (), st')
           ∧ SRC.repo_cache st' !! "a.js" = Some "old"
           ∧ SRC.debouncer st' = SRC.trigger 0 (SRC.debouncer Scenario.state_a).
Proof.
  split_and!; [by vm_compute..|].
  eexists. split_and!; [by vm_compute|by vm_compute|by vm_compute].
Qed.

Lemma on_created_modified_in_scope_witness :
  SRC.is_directory (SRC.FileSystemEvent "/r/b.js" false) = false
  ∧ SRC.on_created Scenario.no_regex Scenario.cwd Scenario.handler
      Scenario.disk_echo 0 (SRC.FileSystemEvent "/r/b.js" false) Scenario.state_a
    = (Ok (),
       {| SRC.repo_cache := <["b.js" := "/r/b.js"]> Scenario.cache_a;
          SRC.debouncer := SRC.trigger 0 (SRC.new_debouncer 5) |}).
Proof.
  split; [done|].
  apply (on_created_modified_in_scope Scenario.no_regex Scenario.cwd Scenario.handler
           Scenario.disk_echo 0 (SRC.FileSystemEvent "/r/b.js" false) "b.js" Scenario.state_a);
    by vm_compute.
Defined.

(** C1, at the input where the code departs from it. The file [/r/a.js], in
    scope and cached, is renamed to [/r/a.txt], out of scope: [on_moved]
    removes the entry of [a.js] and does not trigger the debouncer, whereas
    [on_deleted] for the same file removes the entry and triggers it. *)
Theorem on_moved_out_of_scope_no_trigger :
  SRC._is_relevant_file Scenario.no_regex Scenario.handler "/r/a.js" = Ok true
  ∧ SRC._is_relevant_file Scenario.no_regex Scenario.handler "/r/a.txt" = Ok false
  ∧ SRC.on_moved Scenario.no_regex Scenario.cwd Scenario.handler
      Scenario.disk_renamed_txt 0
      (SRC.FileSystemMovedEvent "/r/a.js" "/r/a.txt" false) Scenario.state_a
    = (Ok (), {| SRC.repo_cache := ∅; SRC.debouncer := SRC.new_debouncer 5 |})
  ∧ SRC.on_deleted Scenario.no_regex Scenario.cwd Scenario.handler 0
      (SRC.FileSystemEvent "/r/a.js" false) Scenario.state_a
    = (Ok (), {| SRC.repo_cache := ∅;
                 SRC.debouncer := SRC.trigger 0 (SRC.new_debouncer 5) |}).
Proof. split_and!; by vm_compute. Qed.

(** C4, at the input where the code departs from it. With [test] an excluded
    directory of the root [/r], the filter of the handler accepts
    [/r/a/test/f.js]: it only compares against [/r/test]. The scan prunes
    [test] at every depth and loads neither [a/test/f.js] nor [test/g.js].
    The comparison is by path components: [/r/test/g.js] is rejected and
    [/r/mytest-data/h.js] is accepted. *)
Theorem nested_excluded_dir_accepted :
  SRC._is_relevant_file Scenario.no_regex Scenario.handler "/r/a/test/f.js" = Ok true
  ∧ SRC._is_relevant_file Scenario.no_regex Scenario.handler "/r/test/g.js" = Ok false
  ∧ SRC._is_relevant_file Scenario.no_regex Scenario.handler "/r/mytest-data/h.js" = Ok true
  ∧ ∃ c, SRC.load_initial_cache Scenario.no_regex Scenario.cwd
           Scenario.tree_nested Scenario.disk_echo "/r"
           Scenario.main_extensions Scenario.main_excludes
           Scenario.main_exclude_dirs Scenario.main_sensitive_files (Some []) ∅
         = (Ok (), c)
         ∧ c !! "a/test/f.js" = None
         ∧ c !! "test/g.js" = None
         ∧ c !! "mytest-data/h.js" = Some "/r/mytest-data/h.js"
         ∧ c !! "top.js" = Some "/r/top.js".
Proof.
  split_and!; [by vm_compute..|].
  eexists. split; [by vm_compute|]. split_and!; by vm_compute.
Qed.

(** ** Strings *)

Section Strings.

Implicit Types (s t u : string).

Lemma str_app_cons a s t : String a s +:+ t = String a (s +:+ t).
Proof. done. Qed.

Lemma str_app_nil_l s : "" +:+ s = s.
Proof. done. Qed.

Lemma str_app_nil_r s : s +:+ "" = s.
Proof. induction s as [|a s IH]; [done|]. by rewrite str_app_cons, IH. Qed.

Lemma str_app_assoc s t u : (s +:+ t) +:+ u = s +:+ (t +:+ u).
Proof. induction s as [|a s IH]; [done|]. by rewrite !str_app_cons, IH. Qed.

(** The strict order of strings: [s1 < s2] in Python. *)
Lemma str_lt_strict_le s t : strict String.le s t ↔ str_lt s t.
Proof.
  unfold strict, String.le, str_lt, String.leb.
  rewrite (String.compare_antisym s t).
  destruct (String.compare t s); simpl; intuition discriminate.
Qed.

End Strings.

(** ** The renderer *)

Section Renderer.

Implicit Types (c : gmap string string).

Lemma sorted_Permutation (l : list string) : Py.sorted l ≡ₚ l.
Proof. apply merge_sort_Permutation. Qed.

Lemma sorted_StronglySorted (l : list string) :
  StronglySorted String.le (Py.sorted l).
Proof. apply StronglySorted_merge_sort; apply _. Qed.

(** A sorted list without repetition is strictly ascending. *)
Lemma StronglySorted_strict (l : list string) :
  NoDup l → StronglySorted String.le l → StronglySorted str_lt l.
Proof.
  intros Hnd Hs. induction Hs as [|x l Hs IH Hall]; [constructor|].
  apply NoDup_cons in Hnd as [Hx Hnd]. constructor; [by apply IH|].
  rewrite Forall_forall in *. intros y Hy.
  apply str_lt_strict_le, strict_spec_alt. split; [by apply Hall|].
  by intros ->.
Qed.

(** [sorted] does not depend on the order in which it is given the keys. *)
Lemma sorted_order_irrelevant (l1 l2 : list string) :
  l1 ≡ₚ l2 → Py.sorted l1 = Py.sorted l2.
Proof.
  intros Hp. apply (StronglySorted_unique String.le);
    [apply sorted_StronglySorted..|].
  by rewrite !sorted_Permutation.
Qed.

Lemma get_all_files_sorted_elem c p :
  p ∈ SRC.get_all_files_sorted c ↔ is_Some (c !! p).
Proof.
  unfold SRC.get_all_files_sorted. rewrite sorted_Permutation.
  rewrite list_elem_of_fmap. split.
  - intros [[k v] [-> Hkv]]. apply elem_of_map_to_list in Hkv. by exists v.
  - intros [v Hv]. exists (p, v). split; [done|]. by apply elem_of_map_to_list.
Qed.

Lemma get_all_files_sorted_ascending c :
  StronglySorted str_lt (SRC.get_all_files_sorted c).
Proof.
  apply StronglySorted_strict; [|apply sorted_StronglySorted].
  unfold SRC.get_all_files_sorted. rewrite sorted_Permutation.
  apply NoDup_fst_map_to_list.
Qed.

(** The loop of [generate_markdown_output] appends one block per path. *)
Lemma code_output_blocks c (paths : list string) (acc : string) :
  fold_left
    (λ code_output relative_path,
       let file_content := SRC.get_file_content c relative_path in
       (code_output +:+ ("----- FILE: " +:+ relative_path +:+ " -----" +:+ nl))
       +:+ ("```" +:+ nl +:+ file_content +:+ nl +:+ "```" +:+ nl +:+ nl))
    paths acc
  = acc +:+ Spec.file_blocks ((λ p, (p, SRC.get_file_content c p)) <$> paths).
Proof.
  revert acc. induction paths as [|p paths IH]; intros acc; simpl.
  - by rewrite str_app_nil_r.
  - rewrite IH. unfold Spec.file_block. by rewrite !str_app_assoc.
Qed.

Lemma fst_with_content c (paths : list string) :
  ((λ p, (p, SRC.get_file_content c p)) <$> paths).*1 = paths.
Proof. induction paths as [|p paths IH]; [done|]. csimpl. by rewrite IH. Qed.

(** C7. The rendered document is the tree output followed by one block per
    cached file, in strictly ascending order of relative path; a block is
    the marker line of the path, then the stored content, as it is,
    between two fence lines. The cache of the scenario renders [a.js]
    before [b/c.ts]. *)
Theorem generate_markdown_output_sorted_blocks c (directory tree_output : string) :
  (∃ files : list (string * string),
     SRC.generate_markdown_output c directory tree_output
     = Spec.document tree_output files
     ∧ StronglySorted str_lt files.*1
     ∧ ∀ p content, (p, content) ∈ files ↔ c !! p = Some content)
  ∧ SRC.generate_markdown_output {[ "a.js" := "x"; "b/c.ts" := "y" ]}
      directory tree_output
    = Spec.document tree_output [("a.js", "x"); ("b/c.ts", "y")].
Proof.
  split.
  - exists ((λ p, (p, SRC.get_file_content c p)) <$> SRC.get_all_files_sorted c).
    split_and!.
    + unfold SRC.generate_markdown_output, Spec.document.
      by rewrite code_output_blocks.
    + rewrite fst_with_content. apply get_all_files_sorted_ascending.
    + intros p content. rewrite list_elem_of_fmap. split.
      * intros [q [[= -> ->] Hq]]. apply get_all_files_sorted_elem in Hq as [v Hv].
        unfold SRC.get_file_content. by rewrite Hv.
      * intros Hp. exists p. split.
        -- unfold SRC.get_file_content. by rewrite Hp.
        -- apply get_all_files_sorted_elem. by exists content.
  - unfold SRC.generate_markdown_output, Spec.document.
    rewrite code_output_blocks. do 2 f_equal.
Qed.

End Renderer.

(** ** The debouncer *)

Section Debounce.

Implicit Types (deb : SRC.Debouncer) (tm : SRC.Timer) (now t wait : Q).

Lemma last_cons_shift {A} (x d : A) (l : list A) :
  List.last (x :: l) d = List.last l x.
Proof.
  revert x d. induction l as [|y l IH]; intros x d; [done|].
  change (List.last (y :: l) d = List.last (y :: l) x). by rewrite !IH.
Qed.

Lemma finished_not_due now (old : list SRC.Timer) :
  Forall (λ tm, SRC.finished tm = true) old →
  ((λ tm, if SRC.due now tm then SRC.Timer_cancel tm else tm) <$> old) = old
  ∧ List.filter (SRC.due now) old = [].
Proof.
  induction 1 as [|tm old Hfin _ [IH1 IH2]]; [done|].
  csimpl. unfold SRC.due at 1 3. rewrite Hfin. simpl. by rewrite IH1, IH2.
Qed.

Lemma elapse_armed_early wait cs t now deb :
  armed wait cs t deb → (now < t + wait)%Q → SRC.elapse now deb = deb.
Proof.
  intros (old & Hold & ->) Hlt. unfold SRC.elapse. simpl.
  destruct (finished_not_due now old Hold) as [Hmap Hfilter].
  rewrite fmap_app, List.filter_app, Hmap, Hfilter. simpl.
  unfold SRC.due. simpl.
  assert (Qle_bool (t + wait) now = false) as ->.
  { apply not_true_is_false. rewrite Qle_bool_iff. by apply Qlt_not_le. }
  simpl. by rewrite app_nil_r.
Qed.

Lemma elapse_armed_late wait cs t now deb :
  armed wait cs t deb → (t + wait <= now)%Q →
  SRC.calls (SRC.elapse now deb) = cs ++ [(t + wait)%Q].
Proof.
  intros (old & Hold & ->) Hle. unfold SRC.elapse. simpl.
  destruct (finished_not_due now old Hold) as [_ Hfilter].
  rewrite List.filter_app, Hfilter. simpl. unfold SRC.due. simpl.
  by apply Qle_bool_iff in Hle as ->.
Qed.

Lemma trigger_armed wait cs t t' deb :
  armed wait cs t deb → armed wait cs t' (SRC.trigger t' deb).
Proof.
  intros (old & Hold & ->).
  exists (old ++ [SRC.Timer_cancel {| SRC.deadline := (t + wait)%Q;
                                     SRC.finished := false |}]).
  split.
  - apply Forall_app. split; [done|]. by repeat constructor.
  - unfold SRC.trigger. simpl.
    by rewrite alter_app_r_alt, Nat.sub_diag by done.
Qed.

Lemma elapse_idle now deb : idle deb → SRC.elapse now deb = deb.
Proof.
  intros Hidle. destruct (finished_not_due now _ Hidle) as [Hmap Hfilter].
  unfold SRC.elapse. rewrite Hmap, Hfilter. simpl. rewrite app_nil_r.
  by destruct deb.
Qed.

Lemma alter_cancel_finished i (old : list SRC.Timer) :
  Forall (λ tm, SRC.finished tm = true) old →
  Forall (λ tm, SRC.finished tm = true) (alter SRC.Timer_cancel i old).
Proof.
  intros Hold. revert i. induction Hold as [|tm old Htm Hold IH]; intros i; [done|].
  destruct i as [|i]; simpl; constructor; auto. apply IH.
Qed.

(** The first call of a burst on a debouncer at rest *)
Lemma trigger_idle_armed t deb :
  idle deb →
  armed (SRC.wait_time deb) (SRC.calls deb) t (SRC.trigger t (SRC.elapse t deb)).
Proof.
  intros Hidle. rewrite elapse_idle by done. unfold SRC.trigger.
  destruct (SRC._timer deb) as [i|].
  - exists (alter SRC.Timer_cancel i (SRC.timers deb)).
    split; [by apply alter_cancel_finished|done].
  - by exists (SRC.timers deb).
Qed.

Lemma burst_armed wait cs t times deb :
  armed wait cs t deb → spaced wait t times →
  armed wait cs (List.last times t) (SRC.burst times deb).
Proof.
  revert t deb. induction times as [|t' times IH]; intros t deb Harmed Hsp;
    [done|].
  destruct Hsp as [[_ Hlt] Hsp].
  rewrite last_cons_shift.
  simpl. apply IH; [|done].
  rewrite (elapse_armed_early wait cs t) by done. by apply (trigger_armed wait cs t).
Qed.

(** C5. On a debouncer at rest, a burst of calls of [trigger()], each coming
    less than [wait_time] after the one before it, calls the callback exactly
    once, at [wait_time] after the last call of the burst and not before.
    Each call of [trigger()] cancels the timer [_timer] refers to and starts
    a new one, due [wait_time] later. A new debouncer is at rest and has
    called nothing. *)
Theorem debounce_coalescing deb0 t1 (times : list Q) :
  idle deb0 →
  spaced (SRC.wait_time deb0) t1 times →
  let wait := SRC.wait_time deb0 in
  let tN := List.last times t1 in
  let deb := SRC.burst (t1 :: times) deb0 in
  (∀ now, (now < tN + wait)%Q →
     SRC.calls (SRC.elapse now deb) = SRC.calls deb0)
  ∧ (∀ now, (tN + wait <= now)%Q →
       SRC.calls (SRC.elapse now deb) = SRC.calls deb0 ++ [(tN + wait)%Q])
  ∧ (∀ deb1 now i tm,
       SRC._timer deb1 = Some i → SRC.timers deb1 !! i = Some tm →
       SRC.timers (SRC.trigger now deb1) !! i = Some (SRC.Timer_cancel tm))
  ∧ (∀ deb1 now,
       ∃ j, SRC._timer (SRC.trigger now deb1) = Some j
            ∧ SRC.timers (SRC.trigger now deb1) !! j
              = Some {| SRC.deadline := (now + SRC.wait_time deb1)%Q;
                        SRC.finished := false |})
  ∧ (∀ w, idle (SRC.new_debouncer w) ∧ SRC.calls (SRC.new_debouncer w) = []).
Proof.
  intros Hidle Hsp wait tN deb.
  assert (armed wait (SRC.calls deb0) tN deb) as Harmed.
  { apply (burst_armed wait _ t1 times); [by apply trigger_idle_armed|done]. }
  split_and!.
  - intros now Hlt. rewrite (elapse_armed_early wait (SRC.calls deb0) tN) by done.
    by destruct Harmed as (old & _ & ->).
  - intros now Hle. by apply elapse_armed_late.
  - intros deb1 now i tm Hi Htm. unfold SRC.trigger. rewrite Hi. simpl.
    rewrite lookup_app_l.
    + by rewrite list_lookup_alter_eq, Htm.
    + rewrite length_alter. by apply lookup_lt_Some in Htm.
  - intros deb1 now. eexists. split; [reflexivity|].
    unfold SRC.trigger. simpl. by rewrite lookup_app_r, Nat.sub_diag.
  - intros w. split; [constructor|done].
Qed.

End Debounce.

Lemma debounce_coalescing_witness :
  idle (SRC.new_debouncer 5)
  ∧ spaced 5 0 [1; 3; 7]%Q
  ∧ SRC.calls (SRC.elapse 12 (SRC.burst [0; 1; 3; 7]%Q (SRC.new_debouncer 5)))
    = [(7 + 5)%Q].
Proof.
  assert (idle (SRC.new_debouncer 5)) as Hidle by constructor.
  assert (spaced 5 0 [1; 3; 7]%Q) as Hsp by (by vm_compute).
  split; [exact Hidle|]. split; [exact Hsp|].
  apply (debounce_coalescing (SRC.new_debouncer 5) 0 [1; 3; 7]%Q Hidle Hsp).
  by vm_compute.
Defined.

(** * SyncRepo.py: the throttle *)

Section Throttle.

Implicit Types (self : SyncRepo.ChangeHandler) (t : Q).

Lemma on_any_event_inside self t :
  (t - SyncRepo.last_update self < SyncRepo.debounce_time self)%Q →
  SyncRepo.on_any_event t self = self.
Proof.
  intros Hlt. unfold SyncRepo.on_any_event, Qlt_bool.
  assert (Qle_bool (SyncRepo.debounce_time self) (t - SyncRepo.last_update self)
          = false) as ->; [|done].
  apply not_true_is_false. rewrite Qle_bool_iff. by apply Qlt_not_le.
Qed.

Lemma on_any_event_outside self t :
  (SyncRepo.debounce_time self <= t - SyncRepo.last_update self)%Q →
  SyncRepo.on_any_event t self
  = {| SyncRepo.debounce_time := SyncRepo.debounce_time self;
       SyncRepo.last_update := t;
       SyncRepo.updates := SyncRepo.updates self ++ [t] |}.
Proof.
  intros Hle. unfold SyncRepo.on_any_event, Qlt_bool.
  by apply Qle_bool_iff in Hle as ->.
Qed.

Lemma on_events_inside self (times : list Q) :
  Forall (λ t, (t - SyncRepo.last_update self < SyncRepo.debounce_time self)%Q) times →
  SyncRepo.on_events times self = self.
Proof.
  unfold SyncRepo.on_events. induction 1 as [|t times Ht _ IH]; [done|].
  simpl. by rewrite on_any_event_inside.
Qed.

(** C10. The handler of [SyncRepo.py] throttles on the leading edge. Every
    event that arrives less than [debounce_time] after [last_update] is
    dropped: the handler is left exactly as it was, nothing is scheduled.
    The first event that arrives [debounce_time] or more after
    [last_update] updates the code base at once, at its own time.
    [debounce_time] is 5 seconds. *)
Theorem leading_edge_throttle self (times : list Q) (t_late : Q) :
  Forall (λ t, (t - SyncRepo.last_update self < SyncRepo.debounce_time self)%Q) times →
  (SyncRepo.debounce_time self <= t_late - SyncRepo.last_update self)%Q →
  SyncRepo.on_events times self = self
  ∧ SyncRepo.on_events (times ++ [t_late]) self
    = {| SyncRepo.debounce_time := SyncRepo.debounce_time self;
         SyncRepo.last_update := t_late;
         SyncRepo.updates := SyncRepo.updates self ++ [t_late] |}
  ∧ ∀ now, SyncRepo.debounce_time (SyncRepo.new_handler now) = 5%Q.
Proof.
  intros Hin Hlate. split_and!.
  - by apply on_events_inside.
  - pose proof (on_events_inside self times Hin) as Hdropped.
    unfold SyncRepo.on_events in *. rewrite fold_left_app, Hdropped.
    simpl. by apply on_any_event_outside.
  - done.
Qed.

End Throttle.

Lemma leading_edge_throttle_witness :
  Forall (λ t, (t - 10 < 5)%Q) [11; 12; 14 # 1]%Q
  ∧ SyncRepo.on_events [11; 12; 14 # 1]%Q (SyncRepo.new_handler 10)
    = SyncRepo.new_handler 10.
Proof.
  assert (Forall (λ t, (t - 10 < 5)%Q) [11; 12; 14 # 1]%Q) as Hin
    by (repeat constructor).
  split; [exact Hin|].
  apply (leading_edge_throttle (SyncRepo.new_handler 10) [11; 12; 14 # 1]%Q 15 Hin).
  by vm_compute.
Defined.

(** ** Paths *)

Section Paths.

Implicit Types (s t u a b name : string) (names comps : list string).

Lemma str_app_eq_nil s t : s +:+ t = "" → s = "" ∧ t = "".
Proof. by destruct s. Qed.

Lemma startswith_nil s : Py.startswith s "" = true.
Proof. by destruct s. Qed.

Lemma startswith_sep_cons c s :
  Py.startswith (String c s) "/" = Ascii.eqb c "/".
Proof. simpl. rewrite startswith_nil. by destruct (Ascii.eqb c "/"). Qed.

Lemma startswith_sep_app s t :
  s ≠ "" → Py.startswith (s +:+ t) "/" = Py.startswith s "/".
Proof. destruct s as [|c s]; [done|]. intros _. by rewrite str_app_cons, !startswith_sep_cons. Qed.

Lemma no_sep_startswith name : no_sep name = true → Py.startswith name "/" = false.
Proof.
  destruct name as [|c name]; [done|]. rewrite startswith_sep_cons. simpl.
  intros [Hc _]%andb_prop. by apply negb_true_iff.
Qed.

Lemma endswith_cons c s p :
  Py.endswith (String c s) p = String.eqb (String c s) p || Py.endswith s p.
Proof. done. Qed.

Lemma no_sep_endswith name : no_sep name = true → Py.endswith name "/" = false.
Proof.
  induction name as [|c name IH]; [done|]. simpl no_sep.
  intros [Hc Hname]%andb_prop. rewrite endswith_cons, IH by done.
  simpl. apply negb_true_iff in Hc. by rewrite Hc.
Qed.

Lemma endswith_sep_inv s : Py.endswith s "/" = true → ∃ t, s = t +:+ "/".
Proof.
  induction s as [|c s IH]; [done|]. rewrite endswith_cons.
  intros [Heq|Hrec]%orb_prop.
  - apply String.eqb_eq in Heq as ->. by exists "".
  - destruct (IH Hrec) as [t ->]. by exists (String c t).
Qed.

Lemma endswith_sep_app s t :
  t ≠ "" → Py.endswith (s +:+ t) "/" = Py.endswith t "/".
Proof.
  intros Ht. induction s as [|c s IH]; [done|].
  rewrite str_app_cons, endswith_cons, IH.
  assert (String.eqb (String c (s +:+ t)) "/" = false) as ->; [|done].
  apply String.eqb_neq. intros [= _ Hnil]. by apply str_app_eq_nil in Hnil as [_ ?].
Qed.

Lemma endswith_sep_snoc s : Py.endswith (s +:+ "/") "/" = true.
Proof. by rewrite endswith_sep_app. Qed.

(** [join] on a relative second path *)
Lemma join_rel a b :
  Py.startswith b "/" = false →
  OsPath.join a b
  = if bool_decide (a = "") || Py.endswith a "/" then a +:+ b else a +:+ "/" +:+ b.
Proof. unfold OsPath.join. by intros ->. Qed.

Lemma join_rel_startswith a b :
  Py.startswith a "/" = false → Py.startswith b "/" = false →
  Py.startswith (OsPath.join a b) "/" = false.
Proof.
  intros Ha Hb. rewrite join_rel by done.
  destruct a as [|c a]; [done|].
  destruct (_ || _); by rewrite startswith_sep_app.
Qed.

Lemma join_nonempty a b : a ≠ "" → Py.startswith b "/" = false → OsPath.join a b ≠ "".
Proof.
  intros Ha Hb. rewrite join_rel by done.
  destruct (_ || _); by intros [? _]%str_app_eq_nil.
Qed.

Lemma join_isabs a b :
  a ≠ "" → Py.startswith b "/" = false →
  OsPath.isabs (OsPath.join a b) = OsPath.isabs a.
Proof.
  intros Ha Hb. unfold OsPath.isabs. rewrite join_rel by done.
  destruct (_ || _); by rewrite startswith_sep_app.
Qed.

Lemma join_assoc a b c :
  Py.startswith b "/" = false → Py.startswith c "/" = false →
  OsPath.join a (OsPath.join b c) = OsPath.join (OsPath.join a b) c.
Proof.
  intros Hb Hc.
  rewrite (join_rel a (OsPath.join b c)) by by apply join_rel_startswith.
  rewrite (join_rel (OsPath.join a b) c) by done.
  rewrite (join_rel a b), (join_rel b c) by done.
  destruct (decide (a = "")) as [->|Ha].
  { simpl. done. }
  rewrite (bool_decide_eq_false_2 (a = "")) by done. simpl.
  destruct (decide (b = "")) as [->|Hb'].
  { simpl. rewrite !str_app_nil_r.
    destruct (Py.endswith a "/") eqn:Hea.
    - by rewrite (bool_decide_eq_false_2 (a = "")), Hea by done.
    - rewrite bool_decide_eq_false_2, endswith_sep_snoc.
      + simpl. by rewrite str_app_assoc.
      + by intros [? _]%str_app_eq_nil. }
  rewrite (bool_decide_eq_false_2 (b = "")) by done. simpl.
  destruct (Py.endswith a "/") eqn:Hea, (Py.endswith b "/") eqn:Heb.
  - rewrite bool_decide_eq_false_2, endswith_sep_app, Heb by (done || by intros [? _]%str_app_eq_nil).
    simpl. by rewrite str_app_assoc.
  - rewrite bool_decide_eq_false_2, endswith_sep_app, Heb by (done || by intros [? _]%str_app_eq_nil).
    simpl. by rewrite !str_app_assoc.
  - rewrite bool_decide_eq_false_2 by (by intros [? _]%str_app_eq_nil).
    rewrite <-(str_app_assoc a "/" b), endswith_sep_app, Heb by done.
    simpl. by rewrite !str_app_assoc.
  - rewrite bool_decide_eq_false_2 by (by intros [? _]%str_app_eq_nil).
    rewrite <-(str_app_assoc a "/" b), endswith_sep_app, Heb by done.
    simpl. by rewrite !str_app_assoc.
Qed.


(** [split] *)

Lemma split_cons c s :
  Py.split "/" (String c s)
  = if Ascii.eqb c "/" then "" :: Py.split "/" s
    else match Py.split "/" s with
         | [] => [String c ""]
         | w :: ws => String c w :: ws
         end.
Proof. done. Qed.

Lemma split_nonempty s : Py.split "/" s ≠ [].
Proof.
  destruct s as [|c s]; [done|]. rewrite split_cons.
  by destruct (Ascii.eqb c "/"), (Py.split "/" s).
Qed.

Lemma split_app_sep s t :
  Py.split "/" (s +:+ "/" +:+ t) = Py.split "/" s ++ Py.split "/" t.
Proof.
  induction s as [|c s IH]; [done|].
  rewrite str_app_cons, !split_cons, IH.
  destruct (Ascii.eqb c "/"); [done|].
  pose proof (split_nonempty s). by destruct (Py.split "/" s).
Qed.

Lemma split_no_sep s : no_sep s = true → Py.split "/" s = [s].
Proof.
  induction s as [|c s IH]; [done|]. simpl no_sep.
  intros [Hc Hs]%andb_prop. apply negb_true_iff in Hc.
  by rewrite split_cons, Hc, IH.
Qed.

Lemma split_all_no_sep s : Forall (λ w, no_sep w = true) (Py.split "/" s).
Proof.
  induction s as [|c s IH]; [by repeat constructor|]. rewrite split_cons.
  destruct (Ascii.eqb c "/") eqn:Hc; [by constructor|].
  destruct (Py.split "/" s) as [|w ws].
  - constructor; [|done]. simpl. by rewrite Hc.
  - apply Forall_cons in IH as [Hw Hws]. constructor; [|done].
    simpl. by rewrite Hc, Hw.
Qed.

(** Joining names and splitting again gives the names. *)
Lemma join_cons_cons sep a b names :
  Py.join sep (a :: b :: names) = a +:+ sep +:+ Py.join sep (b :: names).
Proof. done. Qed.

Lemma split_join names :
  Forall (λ w, no_sep w = true) names → names ≠ [] →
  Py.split "/" (Py.join "/" names) = names.
Proof.
  induction 1 as [|a names Ha Hnames IH]; [done|]. intros _.
  destruct names as [|b names]; [by apply split_no_sep|].
  rewrite join_cons_cons, split_app_sep, split_no_sep, IH by done. done.
Qed.

Lemma filter_nonempty_split_join comps :
  Forall (λ w, w ≠ "" ∧ no_sep w = true) comps →
  List.filter OsPath.nonempty (Py.split "/" (Py.join "/" comps)) = comps.
Proof.
  intros Hcomps. destruct (decide (comps = [])) as [->|Hne]; [done|].
  rewrite split_join; [|by eapply Forall_impl; [done|]; intros ? [_ ?]|done].
  clear Hne. induction Hcomps as [|w comps [Hw _] _ IH]; [done|].
  simpl. unfold OsPath.nonempty at 1. rewrite bool_decide_eq_false_2 by done.
  simpl. by rewrite IH.
Qed.

Lemma valid_name_spec name :
  valid_name name = true →
  name ≠ "" ∧ name ≠ "." ∧ name ≠ ".." ∧ no_sep name = true.
Proof.
  unfold valid_name. intros [[[H1 H2]%andb_prop H3]%andb_prop H4]%andb_prop.
  apply negb_true_iff, bool_decide_eq_false in H1, H2, H3. done.
Qed.

Lemma join_names_rel names :
  Forall (λ name, valid_name name = true) names →
  Py.startswith (Py.join "/" names) "/" = false.
Proof.
  destruct 1 as [|a names' (Ha & _ & _ & Hsep)%valid_name_spec _]; [done|].
  destruct names' as [|b names']; [by apply no_sep_startswith|].
  rewrite join_cons_cons, startswith_sep_app by done. by apply no_sep_startswith.
Qed.

Lemma join_name_rest a names :
  valid_name a = true → names ≠ [] →
  Forall (λ name, valid_name name = true) names →
  OsPath.join a (Py.join "/" names) = Py.join "/" (a :: names).
Proof.
  intros (Ha & _ & _ & Hsep)%valid_name_spec Hne Hnames.
  rewrite join_rel by by apply join_names_rel.
  rewrite bool_decide_eq_false_2, no_sep_endswith by done. simpl.
  by destruct names.
Qed.

(** The paths built by the walk: the names are appended one by one. *)
Lemma join_all_names D names :
  Forall (λ name, valid_name name = true) names → names ≠ [] →
  OsPath.join_all D names = OsPath.join D (Py.join "/" names).
Proof.
  intros Hnames. revert D.
  induction Hnames as [|a names Ha Hnames IH]; [done|]. intros D _.
  destruct names as [|b names]; [done|].
  change (OsPath.join_all D (a :: b :: names))
    with (OsPath.join_all (OsPath.join D a) (b :: names)).
  rewrite IH by done.
  rewrite <-join_assoc.
  - by rewrite join_name_rest.
  - apply valid_name_spec in Ha as (_ & _ & _ & Hsep). by apply no_sep_startswith.
  - by apply join_names_rel.
Qed.

Lemma join_all_snoc D names name :
  OsPath.join_all D (names ++ [name]) = OsPath.join (OsPath.join_all D names) name.
Proof. unfold OsPath.join_all. by rewrite fold_left_app. Qed.


(** [normpath] *)

Lemma norm_comps_cons is_abs acc comp comps :
  OsPath.norm_comps is_abs acc (comp :: comps)
  = if bool_decide (comp = "") || bool_decide (comp = ".") then
      OsPath.norm_comps is_abs acc comps
    else if negb (bool_decide (comp = ".."))
            || (negb is_abs && bool_decide (acc = []))
            || bool_decide (List.last acc "" = "..") && negb (bool_decide (acc = []))
    then OsPath.norm_comps is_abs (acc ++ [comp]) comps
    else OsPath.norm_comps is_abs (removelast acc) comps.
Proof. done. Qed.

Lemma norm_comps_app is_abs acc comps1 comps2 :
  OsPath.norm_comps is_abs acc (comps1 ++ comps2)
  = OsPath.norm_comps is_abs (OsPath.norm_comps is_abs acc comps1) comps2.
Proof.
  revert acc. induction comps1 as [|comp comps1 IH]; intros acc; [done|].
  rewrite <-app_comm_cons, !norm_comps_cons.
  by repeat case_match.
Qed.

Lemma norm_comps_names is_abs acc names :
  Forall (λ name, valid_name name = true) names →
  OsPath.norm_comps is_abs acc names = acc ++ names.
Proof.
  intros Hnames. revert acc.
  induction Hnames as [|a names (Ha & Hdot & Hdots & _)%valid_name_spec _ IH];
    intros acc; [by rewrite app_nil_r|].
  rewrite norm_comps_cons, !bool_decide_eq_false_2 by done. simpl.
  by rewrite IH, <-app_assoc.
Qed.

Lemma Forall_removelast {A} (P : A → Prop) (l : list A) :
  Forall P l → Forall P (removelast l).
Proof.
  induction 1 as [|x l Hx Hl IH]; [constructor|].
  destruct l; [constructor|]. by constructor.
Qed.

Lemma norm_comps_wf is_abs acc comps :
  Forall (λ w, w ≠ "" ∧ no_sep w = true) acc →
  Forall (λ w, no_sep w = true) comps →
  Forall (λ w, w ≠ "" ∧ no_sep w = true) (OsPath.norm_comps is_abs acc comps).
Proof.
  intros Hacc Hcomps. revert acc Hacc.
  induction Hcomps as [|comp comps Hcomp _ IH]; intros acc Hacc; [done|].
  rewrite norm_comps_cons.
  destruct (bool_decide (comp = "")) eqn:Hempty; [by apply IH|].
  apply bool_decide_eq_false in Hempty. simpl.
  destruct (bool_decide (comp = ".")); [by apply IH|].
  destruct (_ || _).
  - apply IH, Forall_app. split; [done|]. by repeat constructor.
  - by apply IH, Forall_removelast.
Qed.

Lemma isabs_cons F : OsPath.isabs F = true → ∃ F', F = String "/" F'.
Proof.
  unfold OsPath.isabs. destruct F as [|c F]; [done|].
  rewrite startswith_sep_cons. intros ->%Ascii.eqb_eq. by eexists.
Qed.

(** The components of a normalised absolute path *)
Lemma normpath_abs_comps F :
  OsPath.isabs F = true →
  List.filter OsPath.nonempty (Py.split "/" (OsPath.normpath F))
  = OsPath.norm_comps true [] (Py.split "/" F).
Proof.
  intros Habs. unfold OsPath.normpath, OsPath.sep.
  destruct (isabs_cons F Habs) as [F' ->].
  rewrite bool_decide_eq_false_2 by done.
  unfold OsPath.isabs in Habs. rewrite Habs.
  set (comps := OsPath.norm_comps true [] (Py.split "/" (String "/" F'))).
  assert (Forall (λ w, w ≠ "" ∧ no_sep w = true) comps) as Hcomps.
  { apply norm_comps_wf; [constructor|apply split_all_no_sep]. }
  destruct (_ && _).
  - rewrite bool_decide_eq_false_2 by done.
    change ("//" +:+ Py.join "/" comps)
      with (String "/" (String "/" (Py.join "/" comps))).
    rewrite !split_cons. simpl. by apply filter_nonempty_split_join.
  - rewrite bool_decide_eq_false_2 by done.
    change ("/" +:+ Py.join "/" comps) with (String "/" (Py.join "/" comps)).
    rewrite !split_cons. simpl. by apply filter_nonempty_split_join.
Qed.

Lemma join_names_nonempty names :
  Forall (λ name, valid_name name = true) names → names ≠ [] →
  Py.join "/" names ≠ "".
Proof.
  destruct 1 as [|a names' (Ha & _)%valid_name_spec _]; [done|]. intros _.
  destruct names'; [done|]. rewrite join_cons_cons. by intros [? _]%str_app_eq_nil.
Qed.

(** Below an absolute path, the names are added to its components. *)
Lemma abs_comps_join F names :
  OsPath.isabs F = true →
  Forall (λ name, valid_name name = true) names → names ≠ [] →
  OsPath.norm_comps true [] (Py.split "/" (OsPath.join F (Py.join "/" names)))
  = OsPath.norm_comps true [] (Py.split "/" F) ++ names.
Proof.
  intros Habs Hnames Hne.
  assert (Py.split "/" (Py.join "/" names) = names) as Hsplit.
  { apply split_join; [|done]. eapply Forall_impl; [done|].
    by intros ? (_ & _ & _ & ?)%valid_name_spec. }
  rewrite join_rel by by apply join_names_rel.
  destruct (isabs_cons F Habs) as [F' HF].
  rewrite bool_decide_eq_false_2 by by rewrite HF.
  simpl. destruct (Py.endswith F "/") eqn:Hend.
  - destruct (endswith_sep_inv F Hend) as [F0 ->].
    rewrite str_app_assoc, split_app_sep, Hsplit.
    rewrite <-(str_app_nil_r (F0 +:+ "/")), str_app_assoc, split_app_sep.
    rewrite !norm_comps_app. simpl Py.split. rewrite norm_comps_cons. simpl.
    by apply norm_comps_names.
  - rewrite split_app_sep, Hsplit, norm_comps_app. by apply norm_comps_names.
Qed.

Lemma common_prefix_app comps names :
  OsPath.common_prefix comps (comps ++ names) = comps.
Proof.
  induction comps as [|comp comps IH]; [by destruct names|].
  simpl. by rewrite bool_decide_eq_true_2, IH.
Qed.

(** The relative path of a file found by the walk below [D] is the names
    leading to it, joined by "/". *)
Lemma relpath_below cwd D names :
  OsPath.isabs cwd = true →
  Forall (λ name, valid_name name = true) names → names ≠ [] →
  OsPath.relpath cwd (OsPath.join_all D names) D = Ok (Py.join "/" names).
Proof.
  intros Hcwd Hnames Hne.
  pose proof (join_names_rel names Hnames) as Hrel.
  pose proof (join_names_nonempty names Hnames Hne) as Hrest.
  rewrite join_all_names by done.
  set (rest := Py.join "/" names) in *.
  assert (∃ F, OsPath.isabs F = true
               ∧ OsPath.abspath cwd D = OsPath.normpath F
               ∧ OsPath.abspath cwd (OsPath.join D rest)
                 = OsPath.normpath (OsPath.join F rest)) as (F & HF & HD & HP).
  { unfold OsPath.abspath. destruct (OsPath.isabs D) eqn:HabsD.
    - exists D. split_and!; [done..|].
      destruct (isabs_cons D HabsD) as [D' ->].
      by rewrite join_isabs, HabsD by done.
    - exists (OsPath.join cwd D).
      destruct (isabs_cons cwd Hcwd) as [cwd' Hcwd'].
      assert (cwd ≠ "") by by rewrite Hcwd'.
      split_and!; [by rewrite join_isabs|done|].
      assert (OsPath.isabs (OsPath.join D rest) = false) as ->.
      { unfold OsPath.isabs in *. by apply join_rel_startswith. }
      by rewrite join_assoc. }
  subst rest. unfold OsPath.relpath, OsPath.sep.
  rewrite bool_decide_eq_false_2.
  2:{ rewrite join_rel by done. destruct (_ || _); by intros [_ ?]%str_app_eq_nil. }
  rewrite HD, HP, !normpath_abs_comps, abs_comps_join by
    (done || (destruct (isabs_cons F HF) as [F' ->]; by rewrite join_isabs)).
  rewrite common_prefix_app, Nat.sub_diag, drop_app_length. simpl.
  destruct names as [|a p]; [done|].
  apply Forall_cons in Hnames as [Ha Hp]. f_equal.
  destruct p as [|b p]; [done|].
  by rewrite join_all_names, join_name_rest.
Qed.

End Paths.

(** ** The scan *)

(** Induction on a directory tree, with the property known of every entry. *)
Lemma node_ind (P : node → Prop) :
  P File →
  (∀ entries, Forall (λ e, P e.2) entries → P (Dir entries)) →
  ∀ n, P n.
Proof.
  intros Hfile Hdir. fix IH 1. intros [|entries]; [exact Hfile|].
  apply Hdir. induction entries as [|[name child] entries IHentries].
  - constructor.
  - constructor; [apply IH|exact IHentries].
Qed.

Section Scan.

Variable re_search : string → string → bool.
Variable cwd : string.
Variable d : disk.
Variable directory : string.
Variables extensions excludes exclude_dirs sensitive_files : list string.
Variable regex_patterns : option (list string).

Hypothesis cwd_abs : OsPath.isabs cwd = true.

Implicit Types (c : gmap string string) (n : node).
Implicit Types (prefix path names : list string) (name file : string).

Notation "'valid_names'" := (Forall (λ name, valid_name name = true)).
Notation "'included'" :=
  (λ file, SRC._should_include re_search file extensions excludes
             sensitive_files regex_patterns).
Notation "'store'" :=
  (Spec.store
     (λ file, SRC._should_include re_search file extensions excludes
                sensitive_files regex_patterns)
     d directory).

Lemma for_each_cons {S A} (x : A) (xs : list A) (body : A → M S ()) (st : S) :
  for_each (x :: xs) body st
  = match body x st with
    | (Ok _, st') => for_each xs body st'
    | (Raise e, st') => (Raise e, st')
    end.
Proof. done. Qed.

Lemma for_each_app {S A} (xs ys : list A) (body : A → M S ()) (st st' : S) :
  for_each xs body st = (Ok (), st') →
  for_each (xs ++ ys) body st = for_each ys body st'.
Proof.
  revert st. induction xs as [|x xs IH]; intros st.
  - by intros [= ->].
  - rewrite <-app_comm_cons, !for_each_cons.
    destruct (body x st) as [[[]|e] st1]; [apply IH|done].
Qed.

Lemma assoc_fmap {A B} (f : A → B) name (l : list (string * A)) :
  assoc name ((λ e, (e.1, f e.2)) <$> l) = f <$> assoc name l.
Proof.
  induction l as [|[k a] l IH]; [done|]. csimpl.
  by destruct (bool_decide (k = name)).
Qed.

Lemma assoc_elem_of {A} name (a : A) (l : list (string * A)) :
  assoc name l = Some a → (name, a) ∈ l.
Proof.
  induction l as [|[k b] l IH]; [done|]. simpl.
  case_bool_decide as Hk.
  - intros [= ->]. subst. by left.
  - intros. by right; apply IH.
Qed.

Lemma wf_node_entries (entries : list (string * node)) :
  wf_node (Dir entries) = true →
  Forall (λ e, valid_name e.1 = true ∧ wf_node e.2 = true) entries.
Proof.
  simpl. rewrite forallb_forall, Forall_forall. intros Hall e He.
  apply andb_prop, Hall. by apply list_elem_of_In.
Qed.

Lemma dir_names_valid (entries : list (string * node)) :
  wf_node (Dir entries) = true → valid_names (dir_names entries).
Proof.
  intros Hwf%wf_node_entries. unfold dir_names.
  induction Hwf as [|e entries [He _] _ IH]; [constructor|].
  simpl. destruct (is_dir e.2); [by constructor|done].
Qed.

Lemma nondir_names_valid (entries : list (string * node)) :
  wf_node (Dir entries) = true → valid_names (nondir_names entries).
Proof.
  intros Hwf%wf_node_entries. unfold nondir_names.
  induction Hwf as [|e entries [He _] _ IH]; [constructor|].
  simpl. destruct (negb (is_dir e.2)); [by constructor|done].
Qed.

Lemma sorted_valid names : valid_names names → valid_names (Py.sorted names).
Proof. intros. by rewrite sorted_Permutation. Qed.

(** The names the walk descends into: those left by the filter, sorted. *)
Lemma prune_dirs_elem name (dirs : list string) :
  name ∈ SRC.prune_dirs exclude_dirs dirs ↔ name ∈ dirs ∧ name ∉ exclude_dirs.
Proof.
  unfold SRC.prune_dirs. rewrite sorted_Permutation.
  rewrite list_elem_of_In, filter_In, <-list_elem_of_In.
  unfold Py.contains. rewrite negb_true_iff, bool_decide_eq_false. done.
Qed.

Lemma prune_dirs_valid (dirs : list string) :
  valid_names dirs → valid_names (SRC.prune_dirs exclude_dirs dirs).
Proof.
  rewrite !Forall_forall. intros Hdirs name [Hname _]%prune_dirs_elem. by apply Hdirs.
Qed.

Lemma scan_eta (s : SRC.Scan) :
  {| SRC.cache := SRC.cache s; SRC.accesses := SRC.accesses s ++ [] |} = s.
Proof. destruct s. simpl. by rewrite app_nil_r. Qed.

(** The loop over the files of one directory: those that pass the filter
    are opened, in order, and what can be read of them is stored. *)
Lemma load_files_scan prefix (files : list string) (s : SRC.Scan) :
  valid_names prefix → valid_names files →
  SRC.load_files re_search cwd d directory extensions excludes sensitive_files
    regex_patterns (OsPath.join_all directory prefix) files s
  = (Ok (),
     {| SRC.cache :=
          fold_left store ((λ file, prefix ++ [file]) <$> Py.sorted files)
            (SRC.cache s);
        SRC.accesses :=
          SRC.accesses s
          ++ ((λ file, Opened (OsPath.join_all directory (prefix ++ [file])))
                <$> List.filter included (Py.sorted files)) |}).
Proof.
  intros Hprefix Hfiles%sorted_valid. unfold SRC.load_files.
  revert s. induction Hfiles as [|file files' Hfile _ IH]; intros s.
  { simpl. by rewrite scan_eta. }
  rewrite for_each_cons. csimpl.
  assert (valid_names (prefix ++ [file])) as Hpath.
  { apply Forall_app. split; [done|]. by repeat constructor. }
  unfold Spec.store at 2. rewrite List.last_last.
  destruct (SRC._should_include _ _ _ _ _ _).
  - unfold bind, lift, SRC.made. rewrite <-join_all_snoc.
    rewrite relpath_below by (done || by destruct prefix).
    unfold SRC.on_file_cache, SRC._read_and_store_file. simpl.
    destruct (open_read d _); simpl; rewrite IH; simpl; by rewrite <-app_assoc.
  - apply IH.
Qed.

(** The walk and the loop over it: the accesses are those of the
    specification, and the visited files are stored, in order. *)
Lemma walk_scan n :
  wf_node n = true →
  ∀ prefix (s : SRC.Scan), valid_names prefix →
    SRC.for_walk
      (os_walk (SRC.prune_dirs exclude_dirs) n (OsPath.join_all directory prefix))
      (λ root dirs files,
         SRC.load_files re_search cwd d directory extensions excludes
           sensitive_files regex_patterns root files) s
    = (Ok (),
       {| SRC.cache := fold_left store (Spec.visited exclude_dirs n prefix) (SRC.cache s);
          SRC.accesses :=
            SRC.accesses s ++ Spec.accesses included exclude_dirs directory n prefix |}).
Proof.
  unfold SRC.for_walk.
  induction n as [|entries IH] using node_ind; intros Hwf prefix s Hprefix.
  { simpl. by rewrite scan_eta. }
  pose proof (wf_node_entries entries Hwf) as Hentries.
  change (os_walk ?e (Dir entries) ?top)
    with ((top, dir_names entries, nondir_names entries)
          :: flat_map
               (λ dirname,
                  match assoc dirname ((λ e0 : string * node, (e0.1, os_walk e e0.2)) <$> entries) with
                  | Some walk => walk (OsPath.join top dirname)
                  | None => []
                  end)
               (e (dir_names entries))).
  change (Spec.visited exclude_dirs (Dir entries) prefix)
    with (((λ file, prefix ++ [file]) <$> Py.sorted (nondir_names entries))
          ++ flat_map
               (λ dirname,
                  match assoc dirname ((λ e0 : string * node, (e0.1, Spec.visited exclude_dirs e0.2)) <$> entries) with
                  | Some visit => visit (prefix ++ [dirname])
                  | None => []
                  end)
               (SRC.prune_dirs exclude_dirs (dir_names entries))).
  change (Spec.accesses ?i exclude_dirs directory (Dir entries) prefix)
    with (Listed (OsPath.join_all directory prefix)
          :: ((λ file, Opened (OsPath.join_all directory (prefix ++ [file])))
                <$> List.filter i (Py.sorted (nondir_names entries)))
          ++ flat_map
               (λ dirname,
                  match assoc dirname ((λ e0 : string * node, (e0.1, Spec.accesses i exclude_dirs directory e0.2)) <$> entries) with
                  | Some scan => scan (prefix ++ [dirname])
                  | None => []
                  end)
               (SRC.prune_dirs exclude_dirs (dir_names entries))).
  rewrite for_each_cons. unfold bind at 1, SRC.made at 1.
  rewrite load_files_scan by (done || by apply nondir_names_valid).
  cbn [SRC.cache SRC.accesses]. rewrite fold_left_app.
  set (listed := Listed (OsPath.join_all directory prefix)).
  set (opened := (λ file, Opened (OsPath.join_all directory (prefix ++ [file])))
                   <$> List.filter included (Py.sorted (nondir_names entries))).
  rewrite (app_comm_cons opened _ listed), (app_assoc (SRC.accesses s)).
  replace (SRC.accesses s ++ listed :: opened)
    with ((SRC.accesses s ++ [listed]) ++ opened) by (by rewrite <-app_assoc).
  generalize (fold_left store ((λ file, prefix ++ [file]) <$> Py.sorted (nondir_names entries)) (SRC.cache s)).
  generalize ((SRC.accesses s ++ [listed]) ++ opened). clear s listed opened.
  intros log c.
  pose proof (prune_dirs_valid _ (dir_names_valid entries Hwf)) as Hdirs.
  revert log c. induction Hdirs as [|dirname dirs' Hdirname _ IHdirs]; intros log c.
  { simpl. by rewrite app_nil_r. }
  simpl flat_map. rewrite fold_left_app, !assoc_fmap.
  destruct (assoc dirname entries) as [child|] eqn:Hchild; simpl; [|apply IHdirs].
  apply assoc_elem_of in Hchild.
  rewrite Forall_forall in IH, Hentries.
  destruct (Hentries _ Hchild) as [_ Hwf_child].
  rewrite (for_each_app _ _ _ _
             {| SRC.cache :=
                  fold_left store (Spec.visited exclude_dirs child (prefix ++ [dirname])) c;
                SRC.accesses :=
                  log ++ Spec.accesses included exclude_dirs directory child
                           (prefix ++ [dirname]) |}).
  - rewrite IHdirs. cbn [SRC.cache SRC.accesses]. by rewrite <-app_assoc.
  - rewrite <-join_all_snoc.
    apply (IH _ Hchild Hwf_child (prefix ++ [dirname])
             {| SRC.cache := c; SRC.accesses := log |}).
    apply Forall_app. split; [done|]. by repeat constructor.
Qed.

(** What the scan leaves in the cache *)
Lemma load_initial_cache_store (tree : node) c0 :
  wf_node tree = true →
  SRC.load_initial_cache re_search cwd tree d directory extensions excludes
    exclude_dirs sensitive_files regex_patterns c0
  = (Ok (), fold_left store (Spec.visited exclude_dirs tree []) ∅).
Proof.
  intros Hwf. unfold SRC.load_initial_cache, SRC.load_initial_cache_scan.
  unfold bind at 1, SRC.on_file_cache at 1, dict_clear, put.
  cbn [SRC.cache SRC.accesses].
  by rewrite (walk_scan tree Hwf [] {| SRC.cache := ∅; SRC.accesses := [] |}).
Qed.

(** A visited file lies below directories that were not excluded. *)
Lemma visited_not_excluded n :
  wf_node n = true →
  ∀ prefix path, path ∈ Spec.visited exclude_dirs n prefix →
    ∃ dirs file, path = prefix ++ dirs ++ [file]
                 ∧ valid_names (dirs ++ [file])
                 ∧ Forall (λ name, name ∉ exclude_dirs) dirs.
Proof.
  induction n as [|entries IH] using node_ind; intros Hwf prefix path;
    [by intros ?%elem_of_nil|].
  pose proof (wf_node_entries entries Hwf) as Hentries.
  change (Spec.visited exclude_dirs (Dir entries) prefix)
    with (((λ file, prefix ++ [file]) <$> Py.sorted (nondir_names entries))
          ++ flat_map
               (λ dirname,
                  match assoc dirname ((λ e0 : string * node, (e0.1, Spec.visited exclude_dirs e0.2)) <$> entries) with
                  | Some visit => visit (prefix ++ [dirname])
                  | None => []
                  end)
               (SRC.prune_dirs exclude_dirs (dir_names entries))).
  rewrite elem_of_app. intros [Hfile|Hbelow].
  - apply list_elem_of_fmap in Hfile as (file & -> & Hfile).
    exists [], file. split_and!; [done| |constructor].
    pose proof (sorted_valid _ (nondir_names_valid entries Hwf)) as Hfiles.
    rewrite Forall_forall in Hfiles. repeat constructor. by apply Hfiles.
  - apply list_elem_of_In, in_flat_map in Hbelow as (dirname & Hdirname & Hpath).
    apply list_elem_of_In in Hdirname, Hpath.
    pose proof (prune_dirs_valid _ (dir_names_valid entries Hwf)) as Hdirs.
    rewrite Forall_forall in Hdirs. specialize (Hdirs _ Hdirname).
    apply prune_dirs_elem in Hdirname as [_ Hkept].
    rewrite assoc_fmap in Hpath.
    destruct (assoc dirname entries) as [child|] eqn:Hchild; simpl in Hpath;
      [|by apply elem_of_nil in Hpath].
    apply assoc_elem_of in Hchild.
    rewrite Forall_forall in IH, Hentries.
    destruct (Hentries _ Hchild) as [_ Hwf_child].
    destruct (IH _ Hchild Hwf_child _ _ Hpath) as (dirs & file & -> & Hvalid & Hnot).
    exists (dirname :: dirs), file. split_and!.
    + by rewrite <-!app_assoc.
    + by constructor.
    + by constructor.
Qed.

(** The scan of the specification lists and opens nothing that is reached
    through an excluded name. *)
Lemma accesses_not_excluded n :
  wf_node n = true →
  ∀ prefix a, a ∈ Spec.accesses included exclude_dirs directory n prefix →
    (∃ dirs, a = Listed (OsPath.join_all directory (prefix ++ dirs))
             ∧ valid_names dirs
             ∧ Forall (λ name, name ∉ exclude_dirs) dirs)
    ∨ (∃ dirs file,
         a = Opened (OsPath.join_all directory (prefix ++ dirs ++ [file]))
         ∧ valid_names (dirs ++ [file])
         ∧ Forall (λ name, name ∉ exclude_dirs) dirs
         ∧ included file = true).
Proof.
  induction n as [|entries IH] using node_ind; intros Hwf prefix a;
    [by intros ?%elem_of_nil|].
  pose proof (wf_node_entries entries Hwf) as Hentries.
  change (Spec.accesses ?i exclude_dirs directory (Dir entries) prefix)
    with (Listed (OsPath.join_all directory prefix)
          :: ((λ file, Opened (OsPath.join_all directory (prefix ++ [file])))
                <$> List.filter i (Py.sorted (nondir_names entries)))
          ++ flat_map
               (λ dirname,
                  match assoc dirname ((λ e0 : string * node, (e0.1, Spec.accesses i exclude_dirs directory e0.2)) <$> entries) with
                  | Some scan => scan (prefix ++ [dirname])
                  | None => []
                  end)
               (SRC.prune_dirs exclude_dirs (dir_names entries))).
  rewrite elem_of_cons, elem_of_app. intros [->|[Hfile|Hbelow]].
  - left. exists []. by rewrite app_nil_r.
  - right. apply list_elem_of_fmap in Hfile as (file & -> & Hfile).
    apply list_elem_of_In, filter_In in Hfile as [Hfile Hincluded].
    apply list_elem_of_In in Hfile.
    pose proof (sorted_valid _ (nondir_names_valid entries Hwf)) as Hfiles.
    rewrite Forall_forall in Hfiles.
    exists [], file. split_and!; [done| |constructor|done].
    repeat constructor. by apply Hfiles.
  - apply list_elem_of_In, in_flat_map in Hbelow as (dirname & Hdirname & Ha).
    apply list_elem_of_In in Hdirname, Ha.
    pose proof (prune_dirs_valid _ (dir_names_valid entries Hwf)) as Hdirs.
    rewrite Forall_forall in Hdirs. specialize (Hdirs _ Hdirname).
    apply prune_dirs_elem in Hdirname as [_ Hkept].
    rewrite assoc_fmap in Ha.
    destruct (assoc dirname entries) as [child|] eqn:Hchild; simpl in Ha;
      [|by apply elem_of_nil in Ha].
    apply assoc_elem_of in Hchild.
    rewrite Forall_forall in IH, Hentries.
    destruct (Hentries _ Hchild) as [_ Hwf_child].
    destruct (IH _ Hchild Hwf_child _ _ Ha)
      as [(dirs & -> & Hvalid & Hnot)|(dirs & file & -> & Hvalid & Hnot & Hincluded)].
    + left. exists (dirname :: dirs). split_and!.
      * by rewrite <-app_assoc.
      * by constructor.
      * by constructor.
    + right. exists (dirname :: dirs), file. split_and!.
      * by rewrite <-!app_assoc.
      * by constructor.
      * by constructor.
      * done.
Qed.

(** The keys stored for a list of visited files *)
Lemma store_keys (paths : list (list string)) c key :
  is_Some (fold_left store paths c !! key) →
  is_Some (c !! key) ∨ ∃ path, path ∈ paths ∧ key = Py.join "/" path.
Proof.
  revert c. induction paths as [|path paths IH]; intros c; [by left|].
  simpl. intros [Hc|(path' & Hin & ->)]%IH.
  - unfold Spec.store in Hc.
    destruct (SRC._should_include _ _ _ _ _ _); [|by left].
    destruct (open_read d _); [|by left].
    destruct (decide (Py.join "/" path = key)) as [<-|Hne].
    + right. exists path. split; [by left|done].
    + rewrite lookup_insert_ne in Hc by done. by left.
  - right. exists path'. split; [by right|done].
Qed.


(** C6. On a tree of well-formed names, [load_initial_cache] completes.
    The cache it leaves does not depend on what the cache held before: it is
    what storing the visited files into an empty cache gives. Its accesses
    to the file system are, in this order, those of the specification: a
    directory is listed, its files that pass the filter are opened in
    ascending order, then its sub-directories are entered in ascending
    order, an excluded one never. So the scan lists no directory and opens
    no file that is reached through an excluded name, no visited file lies
    below a directory with an excluded name, and no key of the cache has an
    excluded name among its directory components. The names the walk is
    left to descend into are the sub-directories that are not excluded,
    sorted. *)
Theorem load_initial_cache_prunes (tree : node) (s0 : SRC.Scan) :
  wf_node tree = true →
  ∃ c log,
    SRC.load_initial_cache_scan re_search cwd tree d directory extensions
      excludes exclude_dirs sensitive_files regex_patterns s0
    = (Ok (), {| SRC.cache := c; SRC.accesses := SRC.accesses s0 ++ log |})
    ∧ SRC.load_initial_cache re_search cwd tree d directory extensions excludes
        exclude_dirs sensitive_files regex_patterns (SRC.cache s0)
      = (Ok (), c)
    ∧ c = fold_left store (Spec.visited exclude_dirs tree []) ∅
    ∧ log = Spec.accesses included exclude_dirs directory tree []
    ∧ (∀ root,
         Listed root ∈ log →
         ∃ names, root = OsPath.join_all directory names
                  ∧ valid_names names
                  ∧ Forall (λ name, name ∉ exclude_dirs) names)
    ∧ (∀ file_path,
         Opened file_path ∈ log →
         ∃ dirs file, file_path = OsPath.join_all directory (dirs ++ [file])
                      ∧ valid_names (dirs ++ [file])
                      ∧ Forall (λ name, name ∉ exclude_dirs) dirs
                      ∧ included file = true)
    ∧ (∀ path name,
         path ∈ Spec.visited exclude_dirs tree [] →
         name ∈ removelast path → name ∉ exclude_dirs)
    ∧ (∀ key name,
         is_Some (c !! key) →
         name ∈ removelast (Py.split "/" key) → name ∉ exclude_dirs)
    ∧ (∀ dirs : list string,
         StronglySorted String.le (SRC.prune_dirs exclude_dirs dirs)
         ∧ ∀ name, name ∈ SRC.prune_dirs exclude_dirs dirs
                   ↔ name ∈ dirs ∧ name ∉ exclude_dirs).
Proof.
  intros Hwf.
  assert (∀ path name,
            path ∈ Spec.visited exclude_dirs tree [] →
            name ∈ removelast path → name ∉ exclude_dirs) as Hvisited.
  { intros path name Hpath Hname.
    destruct (visited_not_excluded tree Hwf [] path Hpath)
      as (dirs & file & -> & _ & Hdirs).
    simpl in Hname. rewrite removelast_last in Hname.
    rewrite Forall_forall in Hdirs. by apply Hdirs. }
  eexists _, _. split_and!; [|by apply load_initial_cache_store|reflexivity
                            |reflexivity| | |exact Hvisited| |].
  - unfold SRC.load_initial_cache_scan.
    unfold bind at 1, SRC.on_file_cache at 1, dict_clear, put.
    cbn [SRC.cache SRC.accesses].
    by rewrite (walk_scan tree Hwf [] {| SRC.cache := ∅; SRC.accesses := _ |}).
  - intros root Hroot.
    destruct (accesses_not_excluded tree Hwf [] _ Hroot)
      as [(names & [= ->] & Hvalid & Hnot)|(dirs & file & [=] & _)].
    by exists names.
  - intros file_path Hfile.
    destruct (accesses_not_excluded tree Hwf [] _ Hfile)
      as [(names & [=] & _)|(dirs & file & [= ->] & Hvalid & Hnot & Hincluded)].
    by exists dirs, file.
  - intros key name [Hempty|(path & Hpath & ->)]%store_keys Hname.
    { rewrite lookup_empty in Hempty. by destruct Hempty. }
    apply (Hvisited path name Hpath).
    destruct (visited_not_excluded tree Hwf [] path Hpath)
      as (dirs & file & -> & Hvalid & _).
    simpl in *. rewrite split_join in Hname; [done| |by destruct dirs].
    eapply Forall_impl; [exact Hvalid|].
    by intros ? (_ & _ & _ & ?)%valid_name_spec.
  - intros dirs. split; [apply sorted_StronglySorted|].
    intros name. apply prune_dirs_elem.
Qed.

End Scan.

Lemma load_initial_cache_prunes_witness :
  OsPath.isabs Scenario.cwd = true
  ∧ wf_node Scenario.tree_nested = true
  ∧ SRC.load_initial_cache_scan Scenario.no_regex Scenario.cwd Scenario.tree_nested
      Scenario.disk_echo "/r" Scenario.main_extensions Scenario.main_excludes
      Scenario.main_exclude_dirs Scenario.main_sensitive_files (Some [])
      {| SRC.cache := Scenario.cache_a; SRC.accesses := [] |}
    = (Ok (),
       {| SRC.cache :=
            {[ "top.js" := "/r/top.js";
               "mytest-data/h.js" := "/r/mytest-data/h.js" ]};
          SRC.accesses :=
            [Listed "/r"; Opened "/r/top.js"; Listed "/r/a";
             Listed "/r/mytest-data"; Opened "/r/mytest-data/h.js"] |}).
Proof.
  split; [done|]. split; [done|].
  destruct (load_initial_cache_prunes Scenario.no_regex Scenario.cwd
              Scenario.disk_echo "/r" Scenario.main_extensions
              Scenario.main_excludes Scenario.main_exclude_dirs
              Scenario.main_sensitive_files (Some []) eq_refl
              Scenario.tree_nested
              {| SRC.cache := Scenario.cache_a; SRC.accesses := [] |} eq_refl)
    as (c & log & Hscan & _ & Hc & Hlog & _).
  etrans; [exact Hscan|]. rewrite Hc, Hlog. by vm_compute.
Defined.

(** * More properties of the code *)

(** ** The cache as its callers see it *)

Section CacheApi.

Implicit Types (c : gmap string string) (d : disk).
Implicit Types (p q file_path relative_path content : string).

Lemma update_file_ok d file_path relative_path c :
  ∃ c', SRC.update_file d file_path relative_path c = (Ok (), c').
Proof.
  unfold SRC.update_file, SRC._read_and_store_file, dict_set, ret.
  destruct (negb _); [rewrite remove_file_delete; by eexists|].
  destruct (open_read d file_path); by eexists.
Qed.

(** X1. [update_file] never raises and touches no other path. At its own
    path it stores the content of a readable file, removes the entry of a
    missing file, and leaves the entry of a file that cannot be read. *)
Theorem update_file_effect d file_path relative_path c :
  ∃ c',
    SRC.update_file d file_path relative_path c = (Ok (), c')
    ∧ c' !! relative_path
      = match d file_path with
        | Readable content => Some content
        | Unreadable _ => c !! relative_path
        | Missing => None
        end
    ∧ ∀ q, q ≠ relative_path → c' !! q = c !! q.
Proof.
  unfold SRC.update_file, path_exists, SRC._read_and_store_file, open_read, dict_set, ret.
  destruct (d file_path) as [|e|content]; simpl.
  - rewrite remove_file_delete. eexists. split_and!; [done|..].
    + apply lookup_delete_eq.
    + intros q Hq. by apply lookup_delete_ne.
  - by eexists.
  - eexists. split_and!; [done|..].
    + apply lookup_insert_eq.
    + intros q Hq. by apply lookup_insert_ne.
Qed.

(** X2. A readable file that is upserted is listed by
    [get_all_files_sorted] and [get_file_content] gives its content back;
    once removed it is listed no more and [get_file_content] gives the empty
    string. *)
Theorem upsert_list_remove d file_path relative_path content c :
  d file_path = Readable content →
  ∃ c' c'',
    SRC.update_file d file_path relative_path c = (Ok (), c')
    ∧ relative_path ∈ SRC.get_all_files_sorted c'
    ∧ SRC.get_file_content c' relative_path = content
    ∧ SRC.remove_file relative_path c' = (Ok (), c'')
    ∧ (relative_path ∉ SRC.get_all_files_sorted c'')
    ∧ SRC.get_file_content c'' relative_path = "".
Proof.
  intros Hd.
  exists (<[relative_path := content]> c),
         (delete relative_path (<[relative_path := content]> c)).
  split_and!.
  - unfold SRC.update_file, path_exists, SRC._read_and_store_file, open_read.
    by rewrite Hd.
  - apply get_all_files_sorted_elem. by rewrite lookup_insert_eq.
  - unfold SRC.get_file_content. by rewrite lookup_insert_eq.
  - apply remove_file_delete.
  - rewrite get_all_files_sorted_elem, lookup_delete_eq. by intros [? ?].
  - unfold SRC.get_file_content. by rewrite lookup_delete_eq.
Qed.

(** X3. [get_all_files_sorted] lists every cached path exactly once: the
    list has no repetition, as many elements as the cache has entries, and
    is strictly ascending. *)
Theorem get_all_files_sorted_exact c :
  NoDup (SRC.get_all_files_sorted c)
  ∧ length (SRC.get_all_files_sorted c) = size c
  ∧ StronglySorted str_lt (SRC.get_all_files_sorted c)
  ∧ ∀ p, p ∈ SRC.get_all_files_sorted c ↔ is_Some (c !! p).
Proof.
  split_and!.
  - unfold SRC.get_all_files_sorted. rewrite sorted_Permutation.
    apply NoDup_fst_map_to_list.
  - unfold SRC.get_all_files_sorted. rewrite sorted_Permutation.
    by rewrite length_fmap, length_map_to_list.
  - apply get_all_files_sorted_ascending.
  - apply get_all_files_sorted_elem.
Qed.

End CacheApi.

Lemma upsert_list_remove_witness :
  Scenario.disk_echo "/r/b.js" = Readable "/r/b.js"
  ∧ ∃ c' c'',
      SRC.update_file Scenario.disk_echo "/r/b.js" "b.js" Scenario.cache_a = (Ok (), c')
      ∧ "b.js" ∈ SRC.get_all_files_sorted c'
      ∧ SRC.get_file_content c' "b.js" = "/r/b.js"
      ∧ SRC.remove_file "b.js" c' = (Ok (), c'')
      ∧ ("b.js" ∉ SRC.get_all_files_sorted c'')
      ∧ SRC.get_file_content c'' "b.js" = "".
Proof.
  split; [done|].
  apply (upsert_list_remove Scenario.disk_echo "/r/b.js" "b.js" "/r/b.js" Scenario.cache_a).
  done.
Defined.

(** ** The filters *)

Section Filters.

Variable re_search : string → string → bool.

Implicit Types (s p f : string) (self : SRC.ChangeHandler).

Lemma endswith_refl s : Py.endswith s s = true.
Proof. destruct s; simpl; [done|]. by rewrite Ascii.eqb_refl, String.eqb_refl. Qed.

(** [s.endswith(p)]: [s] is some text followed by [p]. *)
Lemma endswith_spec s p : Py.endswith s p = true ↔ ∃ u, s = u +:+ p.
Proof.
  split.
  - induction s as [|c s IH].
    + destruct p; [by exists ""|done].
    + rewrite endswith_cons. intros [Heq|Hrec]%orb_prop.
      * apply String.eqb_eq in Heq as <-. by exists "".
      * destruct (IH Hrec) as [u ->]. by exists (String c u).
  - intros [u ->]. induction u as [|c u IH]; [apply endswith_refl|].
    by rewrite str_app_cons, endswith_cons, IH, orb_true_r.
Qed.

Lemma any_endswith f (suffixes : list string) :
  Py.any (λ suffix, Py.endswith f suffix) suffixes = true
  ↔ ∃ suffix u, suffix ∈ suffixes ∧ f = u +:+ suffix.
Proof.
  unfold Py.any. rewrite existsb_exists. split.
  - intros (suffix & Hin%list_elem_of_In & [u Hu]%endswith_spec). by exists suffix, u.
  - intros (suffix & u & Hin & Hu). exists suffix.
    split; [by apply list_elem_of_In|]. apply endswith_spec. by exists u.
Qed.

Lemma any_false {A} (g : A → bool) (l : list A) :
  Py.any g l = false ↔ ∀ x, x ∈ l → g x = false.
Proof.
  unfold Py.any. rewrite <-not_true_iff_false, existsb_exists. split.
  - intros Hno x Hx. apply not_true_iff_false. intros Hg. apply Hno.
    exists x. split; [by apply list_elem_of_In|done].
  - intros Hall (x & Hx%list_elem_of_In & Hg). by rewrite (Hall x Hx) in Hg.
Qed.

(** X4. [_should_include] accepts a file name exactly when it is not a
    sensitive file, ends with a listed extension, ends with no excluded
    suffix, and no regular expression of the list, if there is one, is found
    in it. *)
Theorem should_include_iff f (extensions excludes sensitive_files : list string)
    (regex_patterns : option (list string)) :
  SRC._should_include re_search f extensions excludes sensitive_files regex_patterns
  = true
  ↔ (f ∉ sensitive_files)
    ∧ (∃ ext u, ext ∈ extensions ∧ f = u +:+ ext)
    ∧ (∀ exc u, exc ∈ excludes → f ≠ u +:+ exc)
    ∧ (∀ patterns pattern,
         regex_patterns = Some patterns → pattern ∈ patterns →
         re_search pattern f = false).
Proof.
  unfold SRC._should_include, Py.contains.
  case_bool_decide as Hsens.
  { split; [done|]. by intros [? _]. }
  destruct (Py.any (λ ext, Py.endswith f ext) extensions) eqn:Hext; cbn [negb].
  2:{ split; [done|]. intros (_ & Hsome%any_endswith & _). congruence. }
  apply any_endswith in Hext.
  destruct (Py.any (λ exc, Py.endswith f exc) excludes) eqn:Hexc.
  { apply any_endswith in Hexc as (exc & u & Hin & Hu).
    split; [done|]. intros (_ & _ & Hnone & _). by destruct (Hnone exc u). }
  assert (∀ exc u, exc ∈ excludes → f ≠ u +:+ exc) as Hnone.
  { intros exc u Hin Hu. apply not_true_iff_false in Hexc. apply Hexc.
    apply any_endswith. by exists exc, u. }
  destruct regex_patterns as [[|pattern patterns]|].
  - split; [|done]. intros _. split_and!; [done..|].
    by intros ? ? [= <-] ?%elem_of_nil.
  - rewrite negb_true_iff, any_false. split.
    + intros Hno. split_and!; [done..|]. intros ? p [= <-] Hp. by apply Hno.
    + intros (_ & _ & _ & Hrx) p Hp. by apply (Hrx _ p eq_refl).
  - split; [|done]. intros _. split_and!; [done..|]. by intros ? ? [=].
Qed.

End Filters.

(** ** The filter of the handler *)

Section HandlerFilter.

Variable re_search : string → string → bool.

Implicit Types (self : SRC.ChangeHandler) (p file_path name : string).
Implicit Types (comps dcomps names eds : list string).

Notation "'valid_names'" := (Forall (λ name, valid_name name = true)).

Lemma join_abs_isabs D ed : OsPath.isabs D = true → OsPath.isabs (OsPath.join D ed) = true.
Proof.
  intros HD. destruct (Py.startswith ed "/") eqn:Hed.
  - unfold OsPath.join. by rewrite Hed.
  - destruct (isabs_cons D HD) as [D' ->]. by rewrite join_isabs.
Qed.

Lemma in_excluded_dir_abs D file_path eds :
  OsPath.isabs D = true → OsPath.isabs file_path = true →
  ∃ b, SRC.in_excluded_dir D file_path eds = Ok b.
Proof.
  intros HD Hp. induction eds as [|ed eds IH]; [by eexists|].
  simpl. unfold OsPath.commonpath. rewrite Hp, join_abs_isabs by done. simpl.
  case_bool_decide; [by eexists|done].
Qed.

Lemma is_relevant_file_abs self file_path :
  OsPath.isabs (SRC.directory self) = true → OsPath.isabs file_path = true →
  ∃ b, SRC._is_relevant_file re_search self file_path = Ok b.
Proof.
  intros HD Hp. unfold SRC._is_relevant_file.
  destruct (in_excluded_dir_abs _ file_path (SRC.exclude_dirs self) HD Hp) as [b ->].
  repeat case_match; by eexists.
Qed.

(** X5. The filter of the handler does not raise when the watched directory
    and the path of the event are both absolute, [re.search] returning for
    every pattern of the handler as [re_search] has it. With an absolute
    directory and a relative path it raises [ValueError], from [commonpath],
    as soon as the file name passes the name tests and a directory is
    excluded. *)
Theorem is_relevant_file_raises self file_path :
  OsPath.isabs (SRC.directory self) = true →
  (OsPath.isabs file_path = true →
   ∃ b, SRC._is_relevant_file re_search self file_path = Ok b)
  ∧ (OsPath.isabs file_path = false →
     SRC.exclude_dirs self ≠ [] →
     SRC._should_include re_search (OsPath.basename file_path)
       (SRC.extensions self) (SRC.excludes self) (SRC.sensitive_files self) None
     = true →
     SRC._is_relevant_file re_search self file_path = Raise ValueError).
Proof.
  intros HD. split; [by apply is_relevant_file_abs|].
  intros Hp Heds. unfold SRC._should_include, SRC._is_relevant_file.
  destruct (Py.contains _ _); [done|].
  destruct (negb _); [done|].
  destruct (Py.any _ (SRC.excludes self)); [done|]. intros _.
  destruct (SRC.exclude_dirs self) as [|ed eds]; [done|].
  simpl. unfold OsPath.commonpath. by rewrite Hp, join_abs_isabs.
Qed.

(** Paths made of components *)

Lemma valid_name_is_name name : valid_name name = true → OsPath.is_name name = true.
Proof.
  intros (H1 & H2 & _)%valid_name_spec. unfold OsPath.is_name.
  by rewrite !bool_decide_eq_false_2.
Qed.

Lemma valid_names_no_sep comps :
  valid_names comps → Forall (λ w, no_sep w = true) comps.
Proof.
  intros H. eapply Forall_impl; [exact H|]. by intros ? (_ & _ & _ & ?)%valid_name_spec.
Qed.

Lemma join_snoc comps name :
  comps ≠ [] → Py.join "/" (comps ++ [name]) = Py.join "/" comps +:+ "/" +:+ name.
Proof.
  induction comps as [|a comps IH]; [done|]. intros _.
  destruct comps as [|b comps]; [done|].
  specialize (IH ltac:(done)). rewrite <-!app_comm_cons in *.
  by rewrite !join_cons_cons, IH, !str_app_assoc.
Qed.

Lemma clean_abs_join comps name :
  valid_names comps → valid_name name = true →
  OsPath.join (clean_abs comps) name = clean_abs (comps ++ [name]).
Proof.
  intros Hcomps Hname.
  pose proof (valid_name_spec _ Hname) as (_ & _ & _ & Hsep).
  rewrite join_rel by by apply no_sep_startswith.
  unfold clean_abs. rewrite bool_decide_eq_false_2 by done. cbn [orb].
  destruct (decide (comps = [])) as [->|Hne]; [done|].
  rewrite endswith_sep_app by by apply join_names_nonempty.
  assert (Py.endswith (Py.join "/" comps) "/" = false) as ->.
  { clear Hne. induction Hcomps as [|a comps Ha Hcomps IH]; [done|].
    apply valid_name_spec in Ha as (Ha & _ & _ & Hasep).
    destruct comps as [|b comps]; [by apply no_sep_endswith|].
    rewrite join_cons_cons, <-str_app_assoc, endswith_sep_app; [by apply IH|].
    by apply join_names_nonempty. }
  by rewrite join_snoc, !str_app_assoc.
Qed.

Lemma clean_abs_join_all comps names :
  valid_names comps → valid_names names →
  OsPath.join_all (clean_abs comps) names = clean_abs (comps ++ names).
Proof.
  intros Hcomps Hnames. revert comps Hcomps.
  induction Hnames as [|a names Ha _ IH]; intros comps Hcomps.
  - by rewrite app_nil_r.
  - change (OsPath.join_all (clean_abs comps) (a :: names))
      with (OsPath.join_all (OsPath.join (clean_abs comps) a) names).
    rewrite clean_abs_join, IH, <-app_assoc; [done|..|done|done].
    apply Forall_app. split; [done|]. by repeat constructor.
Qed.

Lemma split_clean_abs comps :
  valid_names comps →
  List.filter OsPath.is_name (Py.split "/" (clean_abs comps)) = comps.
Proof.
  intros Hcomps. unfold clean_abs.
  change ("/" +:+ Py.join "/" comps) with (String "/" (Py.join "/" comps)).
  rewrite split_cons. simpl.
  destruct (decide (comps = [])) as [->|Hne]; [done|].
  rewrite split_join by (done || by apply valid_names_no_sep).
  clear Hne. induction Hcomps as [|a comps Ha _ IH]; [done|].
  simpl. by rewrite valid_name_is_name, IH.
Qed.

Lemma clean_abs_inj comps1 comps2 :
  valid_names comps1 → valid_names comps2 →
  clean_abs comps1 = clean_abs comps2 → comps1 = comps2.
Proof.
  intros H1 H2 Heq.
  by rewrite <-(split_clean_abs comps1), <-(split_clean_abs comps2), Heq.
Qed.

Lemma clean_abs_isabs comps : OsPath.isabs (clean_abs comps) = true.
Proof.
  unfold OsPath.isabs, clean_abs.
  change ("/" +:+ Py.join "/" comps) with (String "/" (Py.join "/" comps)).
  by rewrite startswith_sep_cons.
Qed.

Lemma commonpath_clean comps1 comps2 :
  valid_names comps1 → valid_names comps2 →
  OsPath.commonpath (clean_abs comps1) (clean_abs comps2)
  = Ok (clean_abs (OsPath.common_prefix comps1 comps2)).
Proof.
  intros H1 H2. unfold OsPath.commonpath, OsPath.sep.
  by rewrite !clean_abs_isabs, !split_clean_abs.
Qed.

Lemma common_prefix_shared comps names1 names2 :
  OsPath.common_prefix (comps ++ names1) (comps ++ names2)
  = comps ++ OsPath.common_prefix names1 names2.
Proof.
  induction comps as [|c comps IH]; [done|].
  simpl. by rewrite bool_decide_eq_true_2, IH.
Qed.

Lemma common_prefix_valid comps1 comps2 :
  valid_names comps1 → valid_names (OsPath.common_prefix comps1 comps2).
Proof.
  intros H1. revert comps2. induction H1 as [|a comps1 Ha _ IH]; intros comps2;
    [by destruct comps2|].
  destruct comps2 as [|b comps2]; [constructor|]. simpl.
  case_bool_decide; [by constructor|constructor].
Qed.

(** The loop over the excluded directories only sees the first name below
    the directory. *)
Lemma in_excluded_dir_first dcomps name rest eds :
  valid_names dcomps → valid_names (name :: rest) → valid_names eds →
  SRC.in_excluded_dir (clean_abs dcomps)
    (OsPath.join_all (clean_abs dcomps) (name :: rest)) eds
  = Ok (bool_decide (name ∈ eds)).
Proof.
  intros Hd Hnames Heds. rewrite clean_abs_join_all by done.
  induction Heds as [|ed eds Hed Heds IH]; [done|].
  assert (valid_names (dcomps ++ [ed])) as Hded.
  { apply Forall_app. split; [done|]. by repeat constructor. }
  assert (valid_names (dcomps ++ name :: rest)) as Hpath by by apply Forall_app.
  simpl. rewrite clean_abs_join, commonpath_clean, common_prefix_shared by done.
  simpl. destruct (decide (name = ed)) as [->|Hne].
  - rewrite (bool_decide_eq_true_2 (ed = ed)) by done.
    assert (OsPath.common_prefix rest [] = []) as -> by by destruct rest.
    rewrite bool_decide_eq_true_2 by done.
    symmetry. f_equal. apply bool_decide_eq_true_2. by left.
  - rewrite (bool_decide_eq_false_2 (name = ed)) by done.
    rewrite bool_decide_eq_false_2.
    + rewrite IH. f_equal. apply bool_decide_ext.
      split; [by right|]. by intros [?|?]%elem_of_cons.
    + intros Heq%clean_abs_inj; [|by rewrite app_nil_r|done].
      apply (f_equal length) in Heq. rewrite app_nil_r, length_app in Heq.
      simpl in Heq. lia.
Qed.

Lemma List_last_app {A} (l1 l2 : list A) (d : A) :
  l2 ≠ [] → List.last (l1 ++ l2) d = List.last l2 d.
Proof.
  intros Hne. induction l1 as [|x l1 IH]; [done|].
  rewrite <-IH, <-app_comm_cons.
  destruct (l1 ++ l2) eqn:Happ; [|done].
  by apply app_eq_nil in Happ as [_ ?].
Qed.

Lemma basename_clean_abs comps :
  valid_names comps → comps ≠ [] →
  OsPath.basename (clean_abs comps) = List.last comps "".
Proof.
  intros Hcomps Hne. unfold OsPath.basename, OsPath.sep, clean_abs.
  change ("/" +:+ Py.join "/" comps) with (String "/" (Py.join "/" comps)).
  rewrite split_cons. simpl.
  rewrite split_join by (done || by apply valid_names_no_sep).
  by destruct comps.
Qed.

(** The filter of the handler on an absolute path of plain components
    below the directory *)
Lemma is_relevant_file_clean self dcomps name rest :
  SRC.directory self = clean_abs dcomps →
  valid_names dcomps → valid_names (name :: rest) →
  valid_names (SRC.exclude_dirs self) →
  SRC._is_relevant_file re_search self (clean_abs (dcomps ++ name :: rest))
  = Ok (SRC._should_include re_search (List.last (name :: rest) "")
          (SRC.extensions self) (SRC.excludes self) (SRC.sensitive_files self)
          (Some (SRC.regex_patterns self))
        && negb (bool_decide (name ∈ SRC.exclude_dirs self))).
Proof.
  intros HD Hd Hnames Heds.
  unfold SRC._is_relevant_file, SRC._should_include.
  rewrite HD, <-(clean_abs_join_all dcomps (name :: rest)), in_excluded_dir_first
    by done.
  rewrite clean_abs_join_all, basename_clean_abs;
    [|by apply Forall_app|by destruct dcomps|done..].
  rewrite List_last_app by done.
  destruct (Py.contains _ _); [done|].
  destruct (negb (Py.any _ (SRC.extensions self))); [done|].
  destruct (Py.any _ (SRC.excludes self)); [done|].
  destruct (bool_decide (name ∈ SRC.exclude_dirs self)); cbn [negb].
  - by rewrite andb_false_r.
  - rewrite andb_true_r. destruct (SRC.regex_patterns self) as [|pattern patterns]; [done|].
    by destruct (Py.any _ _).
Qed.

(** X6. Let the watched directory be a normalised absolute path, [/] followed
    by plain components, and let every entry of [exclude_dirs] be a plain
    name: one component, not empty, not [.] or [..], without a separator.
    Then, for a path below the directory made of plain names, the filter of
    the handler accepts the file exactly when the file name passes the
    filter of the scan and the first name below the directory, alone, is not
    an excluded directory: an excluded name further down is not seen. *)
Theorem is_relevant_file_below self dcomps name rest :
  SRC.directory self = clean_abs dcomps →
  valid_names dcomps → valid_names (name :: rest) →
  valid_names (SRC.exclude_dirs self) →
  SRC._is_relevant_file re_search self
    (OsPath.join_all (SRC.directory self) (name :: rest))
  = Ok (SRC._should_include re_search (List.last (name :: rest) "")
          (SRC.extensions self) (SRC.excludes self) (SRC.sensitive_files self)
          (Some (SRC.regex_patterns self))
        && negb (bool_decide (name ∈ SRC.exclude_dirs self)))
  ∧ (name ∉ SRC.exclude_dirs self →
     ∀ excluded, excluded ∈ SRC.exclude_dirs self →
       SRC._is_relevant_file re_search self
         (OsPath.join_all (SRC.directory self) (name :: excluded :: rest))
       = Ok (SRC._should_include re_search (List.last (excluded :: rest) "")
               (SRC.extensions self) (SRC.excludes self) (SRC.sensitive_files self)
               (Some (SRC.regex_patterns self)))).
Proof.
  intros HD Hd Hnames Heds. split.
  - rewrite HD at 1. rewrite clean_abs_join_all by done.
    by apply is_relevant_file_clean.
  - intros Hname excluded Hexcluded.
    assert (valid_names (name :: excluded :: rest)) as Hnames'.
    { apply Forall_cons in Hnames as [? ?]. rewrite Forall_forall in Heds.
      constructor; [done|]. constructor; [by apply Heds|done]. }
    rewrite HD at 1. rewrite clean_abs_join_all by done.
    rewrite is_relevant_file_clean by done.
    rewrite (bool_decide_eq_false_2 (name ∈ _)) by done.
    by rewrite andb_true_r.
Qed.

End HandlerFilter.

Lemma is_relevant_file_raises_witness :
  OsPath.isabs (SRC.directory Scenario.handler) = true
  ∧ OsPath.isabs "a.js" = false
  ∧ SRC._is_relevant_file Scenario.no_regex Scenario.handler "a.js" = Raise ValueError.
Proof.
  split; [done|]. split; [done|].
  destruct (is_relevant_file_raises Scenario.no_regex Scenario.handler "a.js" eq_refl)
    as [_ Hraise].
  apply Hraise; by vm_compute.
Defined.

Lemma is_relevant_file_below_witness :
  SRC.directory Scenario.handler = clean_abs ["r"]
  ∧ SRC._is_relevant_file Scenario.no_regex Scenario.handler
      (OsPath.join_all "/r" ["test"; "g.js"])
    = Ok false.
Proof.
  split; [done|].
  destruct (is_relevant_file_below Scenario.no_regex Scenario.handler ["r"]
              "test" ["g.js"]) as [Hfirst _];
    [reflexivity|repeat constructor..|].
  exact Hfirst.
Defined.

(** ** What the scans load *)

Section Loaded.

Variable re_search : string → string → bool.
Variable cwd : string.
Variable d : disk.
Variable directory : string.
Variables extensions excludes exclude_dirs sensitive_files : list string.

Hypothesis cwd_abs : OsPath.isabs cwd = true.

Implicit Types (c : gmap string string) (n tree : node).
Implicit Types (path prefix names : list string) (key content file : string).

Notation "'valid_names'" := (Forall (λ name, valid_name name = true)).

Lemma join_names_inj names1 names2 :
  valid_names names1 → valid_names names2 → names1 ≠ [] → names2 ≠ [] →
  Py.join "/" names1 = Py.join "/" names2 → names1 = names2.
Proof.
  intros H1 H2 Hne1 Hne2 Heq.
  rewrite <-(split_join names1), <-(split_join names2), Heq;
    by (done || apply valid_names_no_sep).
Qed.

Lemma visited_valid tree path :
  wf_node tree = true → path ∈ Spec.visited exclude_dirs tree [] →
  valid_names path ∧ path ≠ [].
Proof.
  intros Hwf Hpath.
  destruct (visited_not_excluded exclude_dirs tree Hwf [] path Hpath)
    as (dirs & file & -> & Hvalid & _).
  split; [done|]. by destruct dirs.
Qed.

(** What a list of visited files leaves in an empty cache: the entries of
    the files that pass the filter and can be read. *)
Lemma store_lookup (included : string → bool) (paths : list (list string))
    key content :
  Forall (λ path, valid_names path ∧ path ≠ []) paths →
  fold_left (Spec.store included d directory) paths ∅ !! key = Some content
  ↔ ∃ path, path ∈ paths ∧ key = Py.join "/" path
            ∧ included (List.last path "") = true
            ∧ open_read d (OsPath.join_all directory path) = Ok content.
Proof.
  revert key content. induction paths as [|path paths IH] using rev_ind;
    intros key content Hpaths.
  { simpl. rewrite lookup_empty. split; [done|]. by intros (? & ?%elem_of_nil & _). }
  apply Forall_app in Hpaths as [Hpaths [[Hpath Hne] _]%Forall_cons].
  rewrite fold_left_app. simpl.
  set (c := fold_left (Spec.store included d directory) paths ∅) in *.
  assert (∀ key content,
            c !! key = Some content
            → ∃ path0, path0 ∈ paths ++ [path] ∧ key = Py.join "/" path0
                       ∧ included (List.last path0 "") = true
                       ∧ open_read d (OsPath.join_all directory path0) = Ok content)
    as Hold.
  { intros k v (path0 & Hin & Hrest)%IH; [|done].
    exists path0. split; [|done]. apply elem_of_app. by left. }
  unfold Spec.store at 1.
  destruct (included (List.last path "")) eqn:Hincl.
  2:{ split; [by apply Hold|].
      intros (path0 & [Hin|Heq%list_elem_of_singleton]%elem_of_app & Hkey & Hok & Hread).
      - apply IH; [done|]. by exists path0.
      - subst path0. congruence. }
  destruct (open_read d (OsPath.join_all directory path)) as [content0|e] eqn:Hopen.
  2:{ split; [by apply Hold|].
      intros (path0 & [Hin|Heq%list_elem_of_singleton]%elem_of_app & Hkey & Hok & Hread).
      - apply IH; [done|]. by exists path0.
      - subst path0. congruence. }
  destruct (decide (key = Py.join "/" path)) as [->|Hkey].
  - rewrite lookup_insert_eq. split.
    + intros [= <-]. exists path. split_and!; [|done..]. apply elem_of_app. right. by left.
    + intros (path0 & Hin & Hjoin & _ & Hread). f_equal.
      assert (path0 = path) as ->; [|congruence].
      apply elem_of_app in Hin as [Hin|Heq%list_elem_of_singleton]; [|done].
      rewrite Forall_forall in Hpaths. destruct (Hpaths _ Hin) as [Hvalid0 Hne0].
      symmetry. by apply join_names_inj.
  - rewrite lookup_insert_ne by done. split; [by apply Hold|].
    intros (path0 & [Hin|Heq%list_elem_of_singleton]%elem_of_app & Hkey' & Hok & Hread).
    + apply IH; [done|]. by exists path0.
    + by subst path0.
Qed.

(** The cache after the scan, entry by entry *)
Lemma load_initial_cache_lookup (regex_patterns : option (list string)) tree c0 :
  wf_node tree = true →
  ∃ c,
    SRC.load_initial_cache re_search cwd tree d directory extensions excludes
      exclude_dirs sensitive_files regex_patterns c0
    = (Ok (), c)
    ∧ ∀ key content,
        c !! key = Some content
        ↔ ∃ path,
            path ∈ Spec.visited exclude_dirs tree []
            ∧ key = Py.join "/" path
            ∧ SRC._should_include re_search (List.last path "") extensions
                excludes sensitive_files regex_patterns = true
            ∧ open_read d (OsPath.join_all directory path) = Ok content.
Proof.
  intros Hwf. eexists. split.
  - by apply (load_initial_cache_store re_search cwd d directory extensions
                excludes exclude_dirs sensitive_files regex_patterns cwd_abs).
  - intros key content.
    apply (store_lookup
             (λ file, SRC._should_include re_search file extensions excludes
                        sensitive_files regex_patterns)).
    apply Forall_forall. intros path Hpath. by apply visited_valid with tree.
Qed.

(** X7. After [load_initial_cache] on a tree of well-formed names, the cache
    holds an entry exactly for the visited files whose name passes
    [_should_include] and whose reading succeeds, each under its names
    joined by "/" and with the content read; a visited file that cannot be
    read has no entry. *)
Theorem load_initial_cache_entries (regex_patterns : option (list string))
    tree c0 :
  wf_node tree = true →
  ∃ c,
    SRC.load_initial_cache re_search cwd tree d directory extensions excludes
      exclude_dirs sensitive_files regex_patterns c0
    = (Ok (), c)
    ∧ (∀ key content,
         c !! key = Some content
         ↔ ∃ path,
             path ∈ Spec.visited exclude_dirs tree []
             ∧ key = Py.join "/" path
             ∧ SRC._should_include re_search (List.last path "") extensions
                 excludes sensitive_files regex_patterns = true
             ∧ open_read d (OsPath.join_all directory path) = Ok content)
    ∧ (∀ path,
         path ∈ Spec.visited exclude_dirs tree [] →
         raises (open_read d (OsPath.join_all directory path)) = true →
         c !! Py.join "/" path = None).
Proof.
  intros Hwf.
  destruct (load_initial_cache_lookup regex_patterns tree c0 Hwf)
    as (c & Hload & Hentries).
  exists c. split_and!; [done..|].
  intros path Hpath Hfail.
  destruct (c !! Py.join "/" path) as [content|] eqn:Hkey; [|done].
  apply Hentries in Hkey as (path' & Hpath' & Hjoin & _ & Hread).
  destruct (visited_valid tree path Hwf Hpath) as [Hvalid Hne].
  destruct (visited_valid tree path' Hwf Hpath') as [Hvalid' Hne'].
  apply join_names_inj in Hjoin as ->; [|done..].
  by rewrite Hread in Hfail.
Qed.

(** The walk, whatever is done with each visited file: when the body of the
    loop over the files of a directory does [act] to the state for each of
    them, the two loops do [act] for the visited files, in order. *)
Lemma walk_fold {S} (body : string → string → M S ()) (act : S → list string → S) :
  (∀ prefix file st,
     valid_names prefix → valid_name file = true →
     body (OsPath.join_all directory prefix) file st
     = (Ok (), act st (prefix ++ [file]))) →
  ∀ n, wf_node n = true →
  ∀ prefix st, valid_names prefix →
    for_each (os_walk (SRC.prune_dirs exclude_dirs) n (OsPath.join_all directory prefix))
      (λ '(root, dirs, files), for_each (Py.sorted files) (body root)) st
    = (Ok (), fold_left act (Spec.visited exclude_dirs n prefix) st).
Proof.
  intros Hbody.
  assert (∀ prefix (files : list string) st,
            valid_names prefix → valid_names files →
            for_each files (body (OsPath.join_all directory prefix)) st
            = (Ok (), fold_left act ((λ file, prefix ++ [file]) <$> files) st))
    as Hfiles.
  { intros prefix files st Hprefix Hfiles. revert st.
    induction Hfiles as [|file files' Hfile _ IH]; intros st; [done|].
    rewrite for_each_cons, Hbody by done. csimpl. apply IH. }
  induction n as [|entries IH] using node_ind; intros Hwf prefix st Hprefix; [done|].
  pose proof (wf_node_entries entries Hwf) as Hentries.
  change (os_walk ?e (Dir entries) ?top)
    with ((top, dir_names entries, nondir_names entries)
          :: flat_map
               (λ dirname,
                  match assoc dirname ((λ e0 : string * node, (e0.1, os_walk e e0.2)) <$> entries) with
                  | Some walk => walk (OsPath.join top dirname)
                  | None => []
                  end)
               (e (dir_names entries))).
  change (Spec.visited exclude_dirs (Dir entries) prefix)
    with (((λ file, prefix ++ [file]) <$> Py.sorted (nondir_names entries))
          ++ flat_map
               (λ dirname,
                  match assoc dirname ((λ e0 : string * node, (e0.1, Spec.visited exclude_dirs e0.2)) <$> entries) with
                  | Some visit => visit (prefix ++ [dirname])
                  | None => []
                  end)
               (SRC.prune_dirs exclude_dirs (dir_names entries))).
  rewrite for_each_cons, Hfiles, fold_left_app
    by (done || by apply sorted_valid, nondir_names_valid).
  generalize (fold_left act ((λ file, prefix ++ [file]) <$> Py.sorted (nondir_names entries)) st).
  clear st. intros st.
  pose proof (prune_dirs_valid exclude_dirs _ (dir_names_valid entries Hwf)) as Hdirs.
  revert st. induction Hdirs as [|dirname dirs' Hdirname _ IHdirs]; intros st; [done|].
  simpl flat_map. rewrite fold_left_app, !assoc_fmap.
  destruct (assoc dirname entries) as [child|] eqn:Hchild; simpl; [|apply IHdirs].
  apply assoc_elem_of in Hchild.
  rewrite Forall_forall in IH, Hentries.
  destruct (Hentries _ Hchild) as [_ Hwf_child].
  erewrite for_each_app; [apply IHdirs|].
  rewrite <-join_all_snoc. apply (IH _ Hchild); [done|].
  apply Forall_app. split; [done|]. by repeat constructor.
Qed.

Lemma loaded_elem (included : string → bool) (paths : list (list string)) key content :
  (key, content) ∈ loaded included d directory paths
  ↔ ∃ path, path ∈ paths ∧ key = Py.join "/" path
            ∧ included (List.last path "") = true
            ∧ open_read d (OsPath.join_all directory path) = Ok content.
Proof.
  unfold loaded. rewrite list_elem_of_omap. split.
  - intros (path & Hin & Hsome). exists path. split; [done|].
    destruct (included _); [|done]. destruct (open_read d _); [|done].
    by injection Hsome as <- <-.
  - intros (path & Hin & -> & Hincl & Hread). exists path. split; [done|].
    by rewrite Hincl, Hread.
Qed.

(** X8. [read_files_in_directory] of [SyncRepo.py], on a tree of well-formed
    names, returns one block per loaded file, in the order of the visit; the
    loaded files are those that the cache of [SRC.py] holds after
    [load_initial_cache] without regular expressions, with the same relative
    paths and the same contents. *)
Theorem read_files_in_directory_blocks tree all_code0 c0 :
  wf_node tree = true →
  let files :=
    loaded
      (λ file, SRC._should_include re_search file extensions excludes
                 sensitive_files None)
      d directory (Spec.visited exclude_dirs tree []) in
  SyncRepoScan.read_files_in_directory cwd tree d directory extensions excludes
    exclude_dirs sensitive_files all_code0
  = (Ok (), legacy_blocks files)
  ∧ ∃ c,
      SRC.load_initial_cache re_search cwd tree d directory extensions excludes
        exclude_dirs sensitive_files None c0
      = (Ok (), c)
      ∧ ∀ key content, (key, content) ∈ files ↔ c !! key = Some content.
Proof.
  intros Hwf files. split.
  - pose proof
      (walk_fold
         (λ root file,
            if Py.contains file sensitive_files then ret ()
            else if Py.any (λ ext, Py.endswith file ext) extensions then
              if Py.any (λ exc, Py.endswith file exc) excludes then ret ()
              else
                let! relative_path :=
                  lift (OsPath.relpath cwd (OsPath.join root file) directory) in
                match open_read d (OsPath.join root file) with
                | Ok file_content =>
                    λ all_code,
                      (Ok (),
                       all_code
                       +:+ (("----- FILE: " +:+ relative_path +:+ " -----" +:+ nl)
                            +:+ nl +:+ "```" +:+ nl +:+ file_content
                            +:+ nl +:+ "```" +:+ nl))
                | Raise _ => ret ()
                end
            else ret ())
         (λ all_code path,
            all_code
            +:+ legacy_blocks
                  (loaded
                     (λ file, SRC._should_include re_search file extensions
                                excludes sensitive_files None)
                     d directory [path]))) as Hwalk.
    etrans; [refine (Hwalk _ tree Hwf [] "" (Forall_nil_2 _))|].
    + intros prefix file st Hprefix Hfile.
      assert (valid_names (prefix ++ [file])) as Hpath.
      { apply Forall_app. split; [done|]. by repeat constructor. }
      unfold loaded, SRC._should_include. simpl omap. rewrite List.last_last.
      destruct (Py.contains file sensitive_files); [by rewrite str_app_nil_r|].
      destruct (Py.any _ extensions); simpl; [|by rewrite str_app_nil_r].
      destruct (Py.any _ excludes); [by rewrite str_app_nil_r|].
      unfold bind, lift. rewrite <-join_all_snoc.
      rewrite relpath_below by (done || by destruct prefix).
      destruct (open_read d _); [|by rewrite str_app_nil_r].
      unfold legacy_blocks, legacy_block. simpl. by rewrite !str_app_assoc, str_app_nil_r.
    + f_equal. subst files.
      generalize (Spec.visited exclude_dirs tree []). intros paths.
      rewrite <-(str_app_nil_l (legacy_blocks _)). generalize "".
      induction paths as [|path paths IH]; intros acc; [by rewrite str_app_nil_r|].
      simpl fold_left. rewrite IH. unfold loaded. simpl omap.
      destruct (SRC._should_include _ _ _ _ _ _); [|by rewrite str_app_nil_r].
      destruct (open_read d _); [|by rewrite str_app_nil_r].
      simpl. by rewrite str_app_nil_r, !str_app_assoc.
  - destruct (load_initial_cache_lookup None tree c0 Hwf) as (c & Hload & Hentries).
    exists c. split; [done|]. intros key content.
    subst files. by rewrite loaded_elem, Hentries.
Qed.

End Loaded.

Lemma load_initial_cache_entries_witness :
  OsPath.isabs Scenario.cwd = true
  ∧ wf_node Scenario.tree_nested = true
  ∧ ∃ c,
      SRC.load_initial_cache Scenario.no_regex Scenario.cwd Scenario.tree_nested
        Scenario.disk_echo "/r" Scenario.main_extensions Scenario.main_excludes
        Scenario.main_exclude_dirs Scenario.main_sensitive_files (Some [])
        Scenario.cache_a
      = (Ok (), c)
      ∧ (c !! "top.js" = Some "/r/top.js"
         ↔ ∃ path,
             path ∈ Spec.visited Scenario.main_exclude_dirs Scenario.tree_nested []
             ∧ "top.js" = Py.join "/" path
             ∧ SRC._should_include Scenario.no_regex (List.last path "")
                 Scenario.main_extensions Scenario.main_excludes
                 Scenario.main_sensitive_files (Some []) = true
             ∧ open_read Scenario.disk_echo (OsPath.join_all "/r" path)
               = Ok "/r/top.js").
Proof.
  split; [done|]. split; [done|].
  destruct (load_initial_cache_entries Scenario.no_regex Scenario.cwd
              Scenario.disk_echo "/r" Scenario.main_extensions
              Scenario.main_excludes Scenario.main_exclude_dirs
              Scenario.main_sensitive_files eq_refl (Some [])
              Scenario.tree_nested Scenario.cache_a eq_refl)
    as (c & Hload & Hentries & _).
  exists c. split; [exact Hload|exact (Hentries "top.js" "/r/top.js")].
Defined.

Lemma read_files_in_directory_blocks_witness :
  OsPath.isabs Scenario.cwd = true
  ∧ wf_node Scenario.tree_nested = true
  ∧ SyncRepoScan.read_files_in_directory Scenario.cwd Scenario.tree_nested
      Scenario.disk_echo "/r" Scenario.main_extensions Scenario.main_excludes
      Scenario.main_exclude_dirs Scenario.main_sensitive_files "stale"
    = (Ok (),
       legacy_blocks [("top.js", "/r/top.js"); ("mytest-data/h.js", "/r/mytest-data/h.js")]).
Proof.
  split; [done|]. split; [done|].
  destruct (read_files_in_directory_blocks Scenario.no_regex Scenario.cwd
              Scenario.disk_echo "/r" Scenario.main_extensions
              Scenario.main_excludes Scenario.main_exclude_dirs
              Scenario.main_sensitive_files eq_refl
              Scenario.tree_nested "stale" ∅ eq_refl)
    as [Hscan _].
  exact Hscan.
Defined.

(** ** The handler, event by event *)

Section Events.

Variable re_search : string → string → bool.
Variable cwd : string.

Implicit Types (self : SRC.ChangeHandler) (d : disk) (st : SRC.State).
Implicit Types (ev : SRC.event) (now : Q) (path : list string).

Notation "'valid_names'" := (Forall (λ name, valid_name name = true)).

(** X9. Let the watched directory be a normalised absolute path, [/] followed
    by plain components, let every entry of [exclude_dirs] be a plain name
    (one component, not empty, not [.] or [..], without a separator), and
    let the names of the tree be plain. Then, for a file that the scan
    visits, the filter of the handler gives what the filter of the scan
    gives for its name; the one exception is a file of the directory itself
    whose name is an excluded directory name. *)
Theorem scanned_file_in_scope self dcomps (tree : node) path :
  SRC.directory self = clean_abs dcomps →
  valid_names dcomps → valid_names (SRC.exclude_dirs self) →
  wf_node tree = true →
  path ∈ Spec.visited (SRC.exclude_dirs self) tree [] →
  (∀ file, path = [file] → file ∉ SRC.exclude_dirs self) →
  SRC._is_relevant_file re_search self (OsPath.join_all (SRC.directory self) path)
  = Ok (SRC._should_include re_search (List.last path "")
          (SRC.extensions self) (SRC.excludes self) (SRC.sensitive_files self)
          (Some (SRC.regex_patterns self))).
Proof.
  intros HD Hd Heds Hwf Hpath Hroot.
  destruct (visited_not_excluded _ tree Hwf [] path Hpath)
    as (dirs & file & -> & Hvalid & Hdirs).
  simpl in *.
  assert (∃ name rest, dirs ++ [file] = name :: rest ∧ name ∉ SRC.exclude_dirs self)
    as (name & rest & Heq & Hname).
  { destruct dirs as [|dir dirs].
    - exists file, []. split; [done|]. by apply Hroot.
    - exists dir, (dirs ++ [file]). split; [done|]. by apply Forall_cons in Hdirs as [? _]. }
  rewrite Heq in *. rewrite HD at 1. rewrite clean_abs_join_all by done.
  rewrite is_relevant_file_clean by done.
  by rewrite bool_decide_eq_false_2, andb_true_r.
Qed.

Lemma relpath_ok p start : p ≠ "" → ∃ rel, OsPath.relpath cwd p start = Ok rel.
Proof.
  intros Hp. unfold OsPath.relpath. rewrite bool_decide_eq_false_2 by done.
  destruct (_ ++ _); by eexists.
Qed.

Lemma isabs_nonempty p : OsPath.isabs p = true → p ≠ "".
Proof. by intros [p' ->]%isabs_cons. Qed.

(** X10. A directory event, and an event whose paths the filter rejects,
    change nothing: every handler leaves the cache and the debouncer as they
    were. So does [on_moved] for an event that is not a moved event. *)
Theorem ignored_events self d now ev st :
  SRC.is_directory ev = true
  ∨ (SRC._is_relevant_file re_search self (SRC.src_path ev) = Ok false
     ∧ ∀ old_path new_path b,
         ev = SRC.FileSystemMovedEvent old_path new_path b →
         SRC._is_relevant_file re_search self new_path = Ok false) →
  SRC.on_created re_search cwd self d now ev st = (Ok (), st)
  ∧ SRC.on_modified re_search cwd self d now ev st = (Ok (), st)
  ∧ SRC.on_deleted re_search cwd self now ev st = (Ok (), st)
  ∧ SRC.on_moved re_search cwd self d now ev st = (Ok (), st)
  ∧ ∀ p b, SRC.on_moved re_search cwd self d now (SRC.FileSystemEvent p b) st
           = (Ok (), st).
Proof.
  intros [Hdir|[Hsrc Hdest]].
  - unfold SRC.on_created, SRC.on_modified, SRC.on_deleted, SRC.on_moved.
    rewrite Hdir. split_and!; [done..| |done].
    destruct ev as [p b|p q b]; [done|]. simpl in Hdir. by rewrite Hdir.
  - unfold SRC.on_created, SRC.on_modified, SRC.on_deleted, SRC.on_moved.
    destruct (SRC.is_directory ev) eqn:Hdir.
    + split_and!; [done..| |done].
      destruct ev as [p b|p q b]; [done|]. simpl in Hdir. by rewrite Hdir.
    + unfold bind, lift. rewrite Hsrc. split_and!; [done..| |done].
      destruct ev as [p b|p q b]; [done|]. simpl in *. subst b. rewrite Hsrc.
      unfold ret. by rewrite (Hdest p q false eq_refl).
Qed.

(** X11. A deleted event for a file whose path passes the filter removes
    the entry of its relative path, leaves every other entry, and triggers
    the debouncer once; it does not matter whether the path had an entry. *)
Theorem on_deleted_in_scope self now ev rel st :
  SRC.is_directory ev = false →
  SRC._is_relevant_file re_search self (SRC.src_path ev) = Ok true →
  OsPath.relpath cwd (SRC.src_path ev) (SRC.directory self) = Ok rel →
  ∃ st',
    SRC.on_deleted re_search cwd self now ev st = (Ok (), st')
    ∧ SRC.repo_cache st' !! rel = None
    ∧ (∀ q, q ≠ rel → SRC.repo_cache st' !! q = SRC.repo_cache st !! q)
    ∧ SRC.debouncer st' = SRC.trigger now (SRC.debouncer st).
Proof.
  intros Hfile Hrelevant Hrel. unfold SRC.on_deleted. rewrite Hfile.
  unfold bind, lift. rewrite Hrelevant, Hrel.
  unfold SRC.on_cache. rewrite remove_file_delete. simpl.
  eexists. split_and!; [done|..|done]; simpl.
  - apply lookup_delete_eq.
  - intros q Hq. by apply lookup_delete_ne.
Qed.

(** X12. A file moved from a path in scope to a path in scope, readable at
    its new place: afterwards the cache holds the new relative path with the
    content read there and not the old one, every other entry is as before,
    and the debouncer was triggered once. *)
Theorem on_moved_in_scope self d now old_path new_path old_rel new_rel content st :
  SRC._is_relevant_file re_search self old_path = Ok true →
  SRC._is_relevant_file re_search self new_path = Ok true →
  OsPath.relpath cwd old_path (SRC.directory self) = Ok old_rel →
  OsPath.relpath cwd new_path (SRC.directory self) = Ok new_rel →
  d new_path = Readable content →
  old_rel ≠ new_rel →
  ∃ st',
    SRC.on_moved re_search cwd self d now
      (SRC.FileSystemMovedEvent old_path new_path false) st
    = (Ok (), st')
    ∧ SRC.repo_cache st' !! new_rel = Some content
    ∧ SRC.repo_cache st' !! old_rel = None
    ∧ (∀ q, q ≠ old_rel → q ≠ new_rel →
         SRC.repo_cache st' !! q = SRC.repo_cache st !! q)
    ∧ SRC.debouncer st' = SRC.trigger now (SRC.debouncer st).
Proof.
  intros Hold Hnew Hrel_old Hrel_new Hd Hne.
  rewrite (on_moved_eq re_search cwd self d now old_path new_path old_rel new_rel
             true true st) by done.
  unfold path_exists, open_read. rewrite Hd. simpl.
  eexists. split_and!; [done|..|done]; simpl.
  - apply lookup_insert_eq.
  - rewrite lookup_insert_ne by done. apply lookup_delete_eq.
  - intros q Hq_old Hq_new.
    rewrite lookup_insert_ne by done. by apply lookup_delete_ne.
Qed.

Lemma handle_change_ok self d now file_path st :
  file_path ≠ "" →
  ∃ st', SRC._handle_change cwd self d now file_path st = (Ok (), st').
Proof.
  intros Hp. destruct (relpath_ok file_path (SRC.directory self) Hp) as [rel Hrel].
  rewrite (handle_change_eq cwd self d now file_path rel st Hrel). by eexists.
Qed.

(** X13. No handler raises when the watched directory and the paths of the
    event are absolute, [re.search] returning for every pattern of the
    handler as [re_search] has it: every event ends with the state changed
    or not, and no exception. A file that cannot be read, or that has
    disappeared, is no exception either. *)
Theorem handlers_do_not_raise self d now ev st :
  OsPath.isabs (SRC.directory self) = true →
  OsPath.isabs (SRC.src_path ev) = true →
  (∀ old_path new_path b,
     ev = SRC.FileSystemMovedEvent old_path new_path b →
     OsPath.isabs new_path = true) →
  (∃ st', SRC.on_created re_search cwd self d now ev st = (Ok (), st'))
  ∧ (∃ st', SRC.on_modified re_search cwd self d now ev st = (Ok (), st'))
  ∧ (∃ st', SRC.on_deleted re_search cwd self now ev st = (Ok (), st'))
  ∧ (∃ st', SRC.on_moved re_search cwd self d now ev st = (Ok (), st')).
Proof.
  intros HD Hsrc Hdest.
  destruct (is_relevant_file_abs re_search self _ HD Hsrc) as [b Hb].
  pose proof (isabs_nonempty _ Hsrc) as Hne.
  split_and!.
  - unfold SRC.on_created. destruct (SRC.is_directory ev); [by eexists|].
    unfold bind at 1, lift at 1. rewrite Hb.
    destruct b; [by apply handle_change_ok|by eexists].
  - unfold SRC.on_modified. destruct (SRC.is_directory ev); [by eexists|].
    unfold bind at 1, lift at 1. rewrite Hb.
    destruct b; [by apply handle_change_ok|by eexists].
  - unfold SRC.on_deleted. destruct (SRC.is_directory ev); [by eexists|].
    unfold bind at 1, lift at 1. rewrite Hb. destruct b; [|by eexists].
    destruct (relpath_ok _ (SRC.directory self) Hne) as [rel Hrel].
    unfold bind, lift. rewrite Hrel. unfold SRC.on_cache.
    rewrite remove_file_delete. by eexists.
  - destruct ev as [p b0|old_path new_path [|]]; [by eexists|by eexists|].
    cbn [SRC.src_path] in *. specialize (Hdest old_path new_path false eq_refl).
    destruct (is_relevant_file_abs re_search self _ HD Hdest) as [b' Hb'].
    destruct (relpath_ok _ (SRC.directory self) Hne) as [old_rel Hold].
    destruct (relpath_ok _ (SRC.directory self) (isabs_nonempty _ Hdest))
      as [new_rel Hnew].
    rewrite (on_moved_eq re_search cwd self d now old_path new_path old_rel new_rel
               b b' st) by done.
    by eexists.
Qed.

End Events.

Lemma scanned_file_in_scope_witness :
  ["mytest-data"; "h.js"]
    ∈ Spec.visited (SRC.exclude_dirs Scenario.handler) Scenario.tree_nested []
  ∧ SRC._is_relevant_file Scenario.no_regex Scenario.handler "/r/mytest-data/h.js"
    = Ok true.
Proof.
  assert (["mytest-data"; "h.js"]
            ∈ Spec.visited (SRC.exclude_dirs Scenario.handler) Scenario.tree_nested [])
    as Hvisited.
  { vm_compute. repeat constructor. }
  split; [exact Hvisited|].
  apply (scanned_file_in_scope Scenario.no_regex Scenario.handler ["r"]
           Scenario.tree_nested ["mytest-data"; "h.js"]);
    [reflexivity|repeat constructor..|reflexivity|exact Hvisited|].
  intros file Hfile. discriminate Hfile.
Defined.

(** The entries of [exclude_dirs] have to be plain names for X6 and X9. With
    the path segment [a/b] excluded, the scan, which compares names, visits
    and loads [a/b/f.js]; the handler, which compares paths, rejects it. *)
Example exclude_dirs_segment_ex :
  let tree := Dir [("a", Dir [("b", Dir [("f.js", File)])])] in
  let self :=
    {| SRC.directory := "/r"; SRC.extensions := [".js"]; SRC.excludes := [];
       SRC.exclude_dirs := ["a/b"]; SRC.sensitive_files := [];
       SRC.regex_patterns := [] |} in
  Spec.visited ["a/b"] tree [] = [["a"; "b"; "f.js"]]
  ∧ SRC.load_initial_cache Scenario.no_regex Scenario.cwd tree Scenario.disk_echo
      "/r" [".js"] [] ["a/b"] [] (Some []) ∅
    = (Ok (), {[ "a/b/f.js" := "/r/a/b/f.js" ]})
  ∧ SRC._should_include Scenario.no_regex "f.js" [".js"] [] [] (Some []) = true
  ∧ SRC._is_relevant_file Scenario.no_regex self "/r/a/b/f.js" = Ok false.
Proof. split_and!; by vm_compute. Qed.

Lemma ignored_events_witness :
  SRC._is_relevant_file Scenario.no_regex Scenario.handler "/r/notes.txt" = Ok false
  ∧ SRC.on_deleted Scenario.no_regex Scenario.cwd Scenario.handler 0
      (SRC.FileSystemEvent "/r/notes.txt" false) Scenario.state_a
    = (Ok (), Scenario.state_a).
Proof.
  split; [by vm_compute|].
  destruct (ignored_events Scenario.no_regex Scenario.cwd Scenario.handler
              Scenario.disk_echo 0 (SRC.FileSystemEvent "/r/notes.txt" false)
              Scenario.state_a) as (_ & _ & Hdeleted & _).
  - right. split; [by vm_compute|]. intros old_path new_path b Hmoved.
    discriminate Hmoved.
  - exact Hdeleted.
Defined.

Lemma on_deleted_in_scope_witness :
  SRC._is_relevant_file Scenario.no_regex Scenario.handler "/r/a.js" = Ok true
  ∧ ∃ st',
      SRC.on_deleted Scenario.no_regex Scenario.cwd Scenario.handler 0
        (SRC.FileSystemEvent "/r/a.js" false) Scenario.state_a
      = (Ok (), st')
      ∧ SRC.repo_cache st' !! "a.js" = None
      ∧ SRC.debouncer st' = SRC.trigger 0 (SRC.debouncer Scenario.state_a).
Proof.
  split; [by vm_compute|].
  destruct (on_deleted_in_scope Scenario.no_regex Scenario.cwd Scenario.handler 0
              (SRC.FileSystemEvent "/r/a.js" false) "a.js" Scenario.state_a)
    as (st' & Hrun & Hgone & _ & Htrigger); [by vm_compute..|].
  exists st'. split_and!; [exact Hrun|exact Hgone|exact Htrigger].
Defined.

Lemma on_moved_in_scope_witness :
  Scenario.disk_echo "/r/b.js" = Readable "/r/b.js"
  ∧ ∃ st',
      SRC.on_moved Scenario.no_regex Scenario.cwd Scenario.handler
        Scenario.disk_echo 0 (SRC.FileSystemMovedEvent "/r/a.js" "/r/b.js" false)
        Scenario.state_a
      = (Ok (), st')
      ∧ SRC.repo_cache st' !! "b.js" = Some "/r/b.js"
      ∧ SRC.repo_cache st' !! "a.js" = None.
Proof.
  split; [done|].
  destruct (on_moved_in_scope Scenario.no_regex Scenario.cwd Scenario.handler
              Scenario.disk_echo 0 "/r/a.js" "/r/b.js" "a.js" "b.js" "/r/b.js"
              Scenario.state_a)
    as (st' & Hrun & Hnew & Hold & _); [by vm_compute..|].
  exists st'. split_and!; [exact Hrun|exact Hnew|exact Hold].
Defined.

Lemma handlers_do_not_raise_witness :
  OsPath.isabs (SRC.directory Scenario.handler) = true
  ∧ ∃ st',
      SRC.on_created Scenario.no_regex Scenario.cwd Scenario.handler
        Scenario.disk_undecodable 0 (SRC.FileSystemEvent "/r/a.js" false)
        Scenario.state_a
      = (Ok (), st').
Proof.
  split; [done|].
  destruct (handlers_do_not_raise Scenario.no_regex Scenario.cwd Scenario.handler
              Scenario.disk_undecodable 0 (SRC.FileSystemEvent "/r/a.js" false)
              Scenario.state_a) as [Hcreated _].
  - reflexivity.
  - reflexivity.
  - intros old_path new_path b Hmoved. discriminate Hmoved.
  - exact Hcreated.
Defined.

(** ** The debouncer, in general *)

Section Debouncer.

Implicit Types (deb : SRC.Debouncer) (tm : SRC.Timer) (now t wait : Q).

Lemma trigger_idle t deb :
  idle deb → armed (SRC.wait_time deb) (SRC.calls deb) t (SRC.trigger t deb).
Proof.
  intros Hidle. unfold SRC.trigger. destruct (SRC._timer deb) as [i|].
  - exists (alter SRC.Timer_cancel i (SRC.timers deb)).
    split; [by apply alter_cancel_finished|done].
  - by exists (SRC.timers deb).
Qed.

(** The timer of a burst, once it has run, leaves the debouncer at rest. *)
Lemma elapse_armed_late_idle wait cs t now deb :
  armed wait cs t deb → (t + wait <= now)%Q →
  idle (SRC.elapse now deb)
  ∧ SRC.wait_time (SRC.elapse now deb) = wait
  ∧ SRC.calls (SRC.elapse now deb) = cs ++ [(t + wait)%Q].
Proof.
  intros Harmed Hle. split_and!; [| |by apply elapse_armed_late].
  - destruct Harmed as (old & Hold & ->). unfold idle, SRC.elapse. simpl.
    destruct (finished_not_due now old Hold) as [Hmap _].
    rewrite fmap_app, Hmap. apply Forall_app. split; [done|].
    simpl. unfold SRC.due. simpl. apply Qle_bool_iff in Hle as ->.
    by repeat constructor.
  - by destruct Harmed as (old & _ & ->).
Qed.

Lemma armed_fields wait cs t deb :
  armed wait cs t deb → SRC.wait_time deb = wait ∧ SRC.calls deb = cs.
Proof. by intros (old & _ & ->). Qed.

(** The callbacks of a burst, whatever the times of its calls. *)
Lemma burst_elapse wait cs t (times : list Q) now deb :
  armed wait cs t deb →
  let deb' := SRC.elapse now (SRC.burst times deb) in
  SRC.calls deb' = cs ++ fires wait t (times ++ [now])
  ∧ SRC.wait_time deb' = wait
  ∧ (idle deb' ∨ armed wait (SRC.calls deb') (List.last times t) deb').
Proof.
  revert cs t deb. induction times as [|t' times IH]; intros cs t deb Harmed.
  - change (SRC.burst [] deb) with deb.
    change (fires wait t ([] ++ [now]))
      with ((if Qle_bool (t + wait) now then [(t + wait)%Q] else []) ++ []).
    rewrite app_nil_r. change (List.last [] t) with t.
    destruct (Qle_bool (t + wait) now) eqn:Hnow.
    + apply Qle_bool_iff in Hnow.
      destruct (elapse_armed_late_idle wait cs t now deb Harmed Hnow)
        as (Hidle & Hwait & Hcalls).
      split_and!; [done|done|by left].
    + assert (now < t + wait)%Q as Hlt.
      { apply Qnot_le_lt. intros Hle. apply Qle_bool_iff in Hle. congruence. }
      rewrite (elapse_armed_early wait cs t) by done.
      destruct (armed_fields _ _ _ _ Harmed) as [Hwait Hcalls].
      rewrite app_nil_r. split_and!; [done|done|]. right. by rewrite Hcalls.
  - rewrite last_cons_shift.
    change (SRC.burst (t' :: times) deb)
      with (SRC.burst times (SRC.trigger t' (SRC.elapse t' deb))).
    change (fires wait t ((t' :: times) ++ [now]))
      with ((if Qle_bool (t + wait) t' then [(t + wait)%Q] else [])
            ++ fires wait t' (times ++ [now])).
    destruct (Qle_bool (t + wait) t') eqn:Ht'.
    + apply Qle_bool_iff in Ht'.
      destruct (elapse_armed_late_idle wait cs t t' deb Harmed Ht')
        as (Hidle & Hwait & Hcalls).
      pose proof (trigger_idle t' _ Hidle) as Harmed'.
      rewrite Hwait, Hcalls in Harmed'.
      destruct (IH _ _ _ Harmed') as (Hc & Hw & Hshape).
      split_and!; [|done|done].
      rewrite Hc. symmetry. apply (app_assoc cs [_] _).
    + assert (t' < t + wait)%Q as Hlt.
      { apply Qnot_le_lt. intros Hle. apply Qle_bool_iff in Hle. congruence. }
      rewrite (elapse_armed_early wait cs t t' deb) by done.
      by apply IH, (trigger_armed wait cs t).
Qed.

Lemma fires_length wait t (times : list Q) :
  (length (fires wait t times) ≤ length times)%nat.
Proof.
  revert t. induction times as [|t' times IH]; intros t; [done|].
  simpl. rewrite length_app. specialize (IH t').
  destruct (Qle_bool (t + wait) t'); simpl; lia.
Qed.

Lemma fires_elem wait t (times : list Q) c :
  c ∈ fires wait t times →
  ∃ t0 t1 : Q, t0 ∈ t :: removelast times ∧ t1 ∈ times
               ∧ c = (t0 + wait)%Q ∧ (t0 + wait <= t1)%Q.
Proof.
  revert t. induction times as [|t' times IH]; intros t Hc.
  { by apply elem_of_nil in Hc. }
  simpl in Hc. apply elem_of_app in Hc as [Hc|Hc].
  - destruct (Qle_bool (t + wait) t') eqn:Ht'; [|by apply elem_of_nil in Hc].
    apply list_elem_of_singleton in Hc as ->. apply Qle_bool_iff in Ht'.
    exists t, t'. split_and!; [left|left|done|done].
  - destruct (IH _ Hc) as (t0 & t1 & Ht0 & Ht1 & -> & Hle).
    exists t0, t1. split_and!; [|by right|done|done].
    destruct times as [|t'' times]; [by apply elem_of_nil in Ht1|].
    right. exact Ht0.
Qed.

(** X14. The callbacks of a debouncer at rest whose [trigger()] is called
    at [t1] and then at [times], seen at time [now]: a call is followed by
    one callback, [wait_time] after it, when no other call came before that
    time, and by none otherwise. So there are no more callbacks than calls,
    each comes [wait_time] after a call and not before its time, and when
    the callback of the last call has run the debouncer is at rest again. *)
Theorem debouncer_callbacks deb0 t1 (times : list Q) now :
  idle deb0 →
  let wait := SRC.wait_time deb0 in
  let deb := SRC.elapse now (SRC.burst (t1 :: times) deb0) in
  let new := fires wait t1 (times ++ [now]) in
  SRC.calls deb = SRC.calls deb0 ++ new
  ∧ (length new ≤ length (t1 :: times))%nat
  ∧ (∀ c, c ∈ new → ∃ t t' : Q, t ∈ t1 :: times ∧ t' ∈ times ++ [now]
                      ∧ c = (t + wait)%Q ∧ (t + wait <= t')%Q)
  ∧ ((List.last times t1 + wait <= now)%Q → idle deb).
Proof.
  intros Hidle wait deb new.
  assert (armed wait (SRC.calls deb0) t1 (SRC.trigger t1 (SRC.elapse t1 deb0)))
    as Harmed by (by apply trigger_idle_armed).
  destruct (burst_elapse wait _ t1 times now _ Harmed) as (Hcalls & _ & Hshape).
  fold deb new in Hcalls, Hshape.
  split_and!.
  - exact Hcalls.
  - pose proof (fires_length wait t1 (times ++ [now])) as Hlen.
    fold new in Hlen. rewrite length_app in Hlen. simpl in *. lia.
  - intros c Hc. destruct (fires_elem _ _ _ _ Hc) as (t & t' & Ht & Ht' & -> & Hle).
    exists t, t'. split_and!; [|done..].
    by rewrite removelast_last in Ht.
  - intros Hlate. destruct Hshape as [Hdone|Hwaiting]; [done|].
    (* the timer of the last call would still wait: it has run *)
    exfalso. destruct Hwaiting as (old & Hold & Hdeb).
    assert (Forall (λ tm, SRC.due now tm = false) (SRC.timers deb)) as Hnot_due.
    { subst deb. unfold SRC.elapse. simpl. apply Forall_fmap, Forall_forall.
      intros tm _. simpl. unfold SRC.due.
      destruct (SRC.finished tm) eqn:Hfin; simpl; [by rewrite Hfin|].
      destruct (Qle_bool (SRC.deadline tm) now) eqn:Hd; simpl; [done|].
      by rewrite Hfin, Hd. }
    change (SRC.elapse now (SRC.burst times (SRC.trigger t1 (SRC.elapse t1 deb0))))
      with deb in Hdeb.
    rewrite Hdeb in Hnot_due. simpl in Hnot_due.
    apply Forall_app in Hnot_due as [_ Hlast].
    apply Forall_cons in Hlast as [Hlast _]. unfold SRC.due in Hlast.
    simpl in Hlast. apply Qle_bool_iff in Hlate. congruence.
Qed.

Lemma cancel_idle deb :
  idle deb → idle (SRC.cancel deb) ∧ SRC.calls (SRC.cancel deb) = SRC.calls deb.
Proof.
  intros Hidle. unfold SRC.cancel. destruct (SRC._timer deb) as [i|]; [|done].
  split; [|done]. by apply alter_cancel_finished.
Qed.

Lemma cancel_armed wait cs t deb :
  armed wait cs t deb → idle (SRC.cancel deb) ∧ SRC.calls (SRC.cancel deb) = cs.
Proof.
  intros (old & Hold & ->). unfold SRC.cancel, idle. simpl. split; [|done].
  rewrite alter_app_r_alt, Nat.sub_diag by done.
  apply Forall_app. split; [done|]. by repeat constructor.
Qed.

(** X15. [cancel()], called at time [c] after a burst: the callbacks that
    were due by then have run, and no other ever does; the debouncer is at
    rest, and a later [trigger()] is followed by its callback as on a new
    debouncer. *)
Theorem cancel_stops_callback deb0 t1 (times : list Q) c :
  idle deb0 →
  let wait := SRC.wait_time deb0 in
  let deb := SRC.cancel (SRC.elapse c (SRC.burst (t1 :: times) deb0)) in
  let before := SRC.calls deb0 ++ fires wait t1 (times ++ [c]) in
  idle deb
  ∧ (∀ now, SRC.calls (SRC.elapse now deb) = before)
  ∧ (∀ t now, (t + wait <= now)%Q →
       SRC.calls (SRC.elapse now (SRC.trigger t deb)) = before ++ [(t + wait)%Q]).
Proof.
  intros Hidle wait deb before.
  assert (armed wait (SRC.calls deb0) t1 (SRC.trigger t1 (SRC.elapse t1 deb0)))
    as Harmed by (by apply trigger_idle_armed).
  destruct (burst_elapse wait _ t1 times c _ Harmed) as (Hcalls & Hwait & Hshape).
  assert (idle deb ∧ SRC.calls deb = before ∧ SRC.wait_time deb = wait)
    as (Hrest & Hbefore & Hw).
  { subst deb before.
    change (SRC.burst times (SRC.trigger t1 (SRC.elapse t1 deb0)))
      with (SRC.burst (t1 :: times) deb0) in *.
    set (deb1 := SRC.elapse c (SRC.burst (t1 :: times) deb0)) in *.
    assert (SRC.wait_time (SRC.cancel deb1) = wait) as Hw.
    { unfold SRC.cancel. by destruct (SRC._timer deb1). }
    destruct Hshape as [Hdone|Hwaiting].
    - destruct (cancel_idle _ Hdone) as [? Hc]. by rewrite Hc, Hcalls.
    - destruct (cancel_armed _ _ _ _ Hwaiting) as [? Hc]. by rewrite Hc, Hcalls. }
  split_and!.
  - done.
  - intros now. by rewrite elapse_idle.
  - intros t now Hle. pose proof (trigger_idle t _ Hrest) as Harmed'.
    rewrite Hw, Hbefore in Harmed'. by apply elapse_armed_late.
Qed.

End Debouncer.

Lemma debouncer_callbacks_witness :
  idle (SRC.new_debouncer 5)
  ∧ SRC.calls (SRC.elapse 30 (SRC.burst [0; 1; 9; 20]%Q (SRC.new_debouncer 5)))
    = [(1 + 5)%Q; (9 + 5)%Q; (20 + 5)%Q].
Proof.
  assert (idle (SRC.new_debouncer 5)) as Hidle by constructor.
  split; [exact Hidle|].
  destruct (debouncer_callbacks (SRC.new_debouncer 5) 0 [1; 9; 20]%Q 30 Hidle)
    as [Hcalls _].
  exact Hcalls.
Defined.

Lemma cancel_stops_callback_witness :
  idle (SRC.new_debouncer 5)
  ∧ ∀ now,
      SRC.calls
        (SRC.elapse now
           (SRC.cancel (SRC.elapse 3 (SRC.burst [0; 1]%Q (SRC.new_debouncer 5)))))
      = [].
Proof.
  assert (idle (SRC.new_debouncer 5)) as Hidle by constructor.
  split; [exact Hidle|].
  destruct (cancel_stops_callback (SRC.new_debouncer 5) 0 [1]%Q 3 Hidle)
    as (_ & Hnever & _).
  exact Hnever.
Defined.

(** ** The throttle of SyncRepo.py, in general *)

Section Legacy.

Implicit Types (self : SyncRepo.ChangeHandler) (t : Q).

Lemma on_any_event_cases self t :
  (SyncRepo.on_any_event t self = self
   ∧ (t < SyncRepo.last_update self + SyncRepo.debounce_time self)%Q)
  ∨ (SyncRepo.on_any_event t self
     = {| SyncRepo.debounce_time := SyncRepo.debounce_time self;
          SyncRepo.last_update := t;
          SyncRepo.updates := SyncRepo.updates self ++ [t] |}
     ∧ (SyncRepo.last_update self + SyncRepo.debounce_time self <= t)%Q).
Proof.
  destruct (Qlt_le_dec (t - SyncRepo.last_update self) (SyncRepo.debounce_time self))
    as [Hlt|Hle].
  - left. split; [by apply on_any_event_inside|]. lra.
  - right. split; [by apply on_any_event_outside|]. lra.
Qed.

Lemma apart_snoc gap prev (times : list Q) t :
  apart gap prev times → (List.last times prev + gap <= t)%Q →
  apart gap prev (times ++ [t]).
Proof.
  revert prev. induction times as [|t' times IH]; intros prev Hap Hle.
  - done.
  - destruct Hap as [Hfirst Hap]. rewrite last_cons_shift in Hle.
    split; [done|]. by apply IH.
Qed.

(** X16. Whatever the times of the events, the updates the handler of
    [SyncRepo.py] makes while it handles them are made at times of these
    events, in their order, each [debounce_time] or more after the one
    before it, the first [debounce_time] or more after the [last_update] it
    began with; and [last_update] ends as the time of the last of them. *)
Theorem on_events_updates_apart self (times : list Q) :
  ∃ new : list Q,
    SyncRepo.updates (SyncRepo.on_events times self) = SyncRepo.updates self ++ new
    ∧ sublist new times
    ∧ apart (SyncRepo.debounce_time self) (SyncRepo.last_update self) new
    ∧ SyncRepo.last_update (SyncRepo.on_events times self)
      = List.last new (SyncRepo.last_update self)
    ∧ SyncRepo.debounce_time (SyncRepo.on_events times self)
      = SyncRepo.debounce_time self.
Proof.
  induction times as [|t times IH] using rev_ind.
  - exists []. simpl. by rewrite app_nil_r.
  - destruct IH as (new & Hupd & Hsub & Hap & Hlast & Hgap).
    unfold SyncRepo.on_events in *. rewrite fold_left_app. simpl.
    set (self' := fold_left _ times self) in *.
    destruct (on_any_event_cases self' t) as [[-> Hlt]|[-> Hle]].
    + exists new. split_and!; [done| |done..].
      by apply sublist_inserts_r.
    + exists (new ++ [t]). simpl. split_and!.
      * by rewrite Hupd, app_assoc.
      * by apply sublist_app.
      * apply apart_snoc; [done|]. by rewrite <- Hlast, <- Hgap.
      * by rewrite last_last.
      * done.
Qed.

End Legacy.

(** ** The rebuild *)

Section Rebuilds.

Variable re_search : string → string → bool.
Variable cwd : string.

Implicit Types (run : result Rebuild.CompletedProcess) (opened : result ()).
Implicit Types (encode : string → result nat) (c : gmap string string).
Implicit Types (sys : Rebuild.System) (self : SRC.ChangeHandler).

Lemma write_markdown_output_eq opened encode doc (written : list string) :
  Rebuild.write_markdown_output opened encode doc written
  = (match encode doc with Ok _ => Ok () | Raise e => Raise e end,
     match opened with Ok _ => written ++ [doc] | Raise _ => written end).
Proof.
  unfold Rebuild.write_markdown_output, bind, lift, ret.
  destruct opened as [[]|e]; by destruct (encode doc).
Qed.

(** X17. What a rebuild writes. The listing of the document is the output
    of [tree] when the command ran, ended with status 0 and printed
    something, and the placeholder line in every other case. A failure of
    the write is swallowed: nothing is written and the rebuild goes on. An
    exception of the tokenizer is not caught, and comes after the write: the
    document is written all the same. *)
Theorem update_code_base_outcome run opened encode directory c (written : list string) :
  let placeholder := "Could not generate tree structure." in
  let listing :=
    match run with
    | Ok result =>
        if bool_decide (Rebuild.returncode result = 0%Z ∧ Rebuild.stdout result ≠ "")
        then Rebuild.stdout result else placeholder
    | Raise _ => placeholder
    end in
  let doc := SRC.generate_markdown_output c directory listing in
  let out := Rebuild.update_code_base run opened encode directory c written in
  (out.2 = match opened with Ok _ => written ++ [doc] | Raise _ => written end)
  ∧ (∀ n, encode doc = Ok n → out.1 = Ok ())
  ∧ (∀ e, encode doc = Raise e → out.1 = Raise e).
Proof.
  intros placeholder listing doc out.
  assert ((if bool_decide (Rebuild.get_tree_structure run = "") then placeholder
           else Rebuild.get_tree_structure run) = listing) as Hlisting.
  { subst listing. destruct run as [result|e]; [|done]. simpl.
    destruct (Z.eqb_spec (Rebuild.returncode result) 0) as [Hz|Hnz].
    - destruct (decide (Rebuild.stdout result = "")) as [Hempty|Hout].
      + rewrite bool_decide_eq_true_2 by done.
        rewrite bool_decide_eq_false_2; [done|]. by intros [_ ?].
      + rewrite bool_decide_eq_false_2 by done.
        by rewrite bool_decide_eq_true_2.
    - rewrite bool_decide_eq_true_2 by done.
      rewrite bool_decide_eq_false_2; [done|]. by intros [? _]. }
  assert (out = (match encode doc with Ok _ => Ok () | Raise e => Raise e end,
                 match opened with Ok _ => written ++ [doc] | Raise _ => written end))
    as ->.
  { subst out doc. unfold Rebuild.update_code_base. cbv zeta.
    unfold placeholder in Hlisting. rewrite Hlisting.
    apply write_markdown_output_eq. }
  simpl. split_and!.
  - done.
  - by intros n ->.
  - by intros e ->.
Qed.

Lemma system_elapse_none run opened encode self now sys :
  List.filter (SRC.due now) (SRC.timers (SRC.debouncer (Rebuild.state sys))) = [] →
  Rebuild.written (Rebuild.system_elapse run opened encode self now sys)
  = Rebuild.written sys.
Proof. intros Hnone. unfold Rebuild.system_elapse. by rewrite Hnone. Qed.

Lemma armed_due_early wait cs t now deb :
  armed wait cs t deb → (now < t + wait)%Q →
  List.filter (SRC.due now) (SRC.timers deb) = [].
Proof.
  intros (old & Hold & ->) Hlt. simpl.
  destruct (finished_not_due now old Hold) as [_ Hfilter].
  rewrite List.filter_app, Hfilter. simpl. unfold SRC.due. simpl.
  assert (Qle_bool (t + wait) now = false) as ->; [|done].
  apply not_true_is_false. rewrite Qle_bool_iff. by apply Qlt_not_le.
Qed.

Lemma armed_due_late wait cs t now deb :
  armed wait cs t deb → (t + wait <= now)%Q →
  List.filter (SRC.due now) (SRC.timers deb)
  = [{| SRC.deadline := (t + wait)%Q; SRC.finished := false |}].
Proof.
  intros (old & Hold & ->) Hle. simpl.
  destruct (finished_not_due now old Hold) as [_ Hfilter].
  rewrite List.filter_app, Hfilter. simpl. unfold SRC.due. simpl.
  by apply Qle_bool_iff in Hle as ->.
Qed.

(** X18. From the change to the document. A modified event, at time [t],
    for a readable file in scope, the debouncer being at rest: the document
    is not written before [t + wait_time]; the timer threads that run at
    that time or later write one document, which renders the cache with the
    new content of the file, and after that the debouncer is at rest
    again. *)
Theorem modified_then_rebuilt self d t ev rel content sys run opened encode :
  idle (SRC.debouncer (Rebuild.state sys)) →
  SRC.is_directory ev = false →
  SRC._is_relevant_file re_search self (SRC.src_path ev) = Ok true →
  OsPath.relpath cwd (SRC.src_path ev) (SRC.directory self) = Ok rel →
  d (SRC.src_path ev) = Readable content →
  let wait := SRC.wait_time (SRC.debouncer (Rebuild.state sys)) in
  ∃ st',
    SRC.on_modified re_search cwd self d t ev (Rebuild.state sys) = (Ok (), st')
    ∧ SRC.repo_cache st' = <[rel := content]> (SRC.repo_cache (Rebuild.state sys))
    ∧ let sys' := {| Rebuild.state := st'; Rebuild.written := Rebuild.written sys |} in
      (∀ now, (now < t + wait)%Q →
         Rebuild.written (Rebuild.system_elapse run opened encode self now sys')
         = Rebuild.written sys)
      ∧ (∀ now, (t + wait <= now)%Q →
           let sys'' := Rebuild.system_elapse run opened encode self now sys' in
           Rebuild.written sys''
           = (Rebuild.update_code_base run opened encode (SRC.directory self)
                (<[rel := content]> (SRC.repo_cache (Rebuild.state sys)))
                (Rebuild.written sys)).2
           ∧ idle (SRC.debouncer (Rebuild.state sys''))
           ∧ SRC.repo_cache (Rebuild.state sys'') = SRC.repo_cache st').
Proof.
  intros Hidle Hfile Hrelevant Hrel Hd wait.
  unfold SRC.on_modified. rewrite Hfile. unfold bind at 1, lift at 1.
  rewrite Hrelevant.
  rewrite (handle_change_eq cwd self d t _ rel _ Hrel).
  unfold path_exists, open_read. rewrite Hd. simpl.
  eexists. split; [reflexivity|]. split; [done|]. simpl.
  pose proof (trigger_idle t _ Hidle) as Harmed. fold wait in Harmed.
  split.
  - intros now Hlt.
    refine (system_elapse_none run opened encode self now
              {| Rebuild.state := _; Rebuild.written := _ |} _).
    exact (armed_due_early wait _ t now _ Harmed Hlt).
  - intros now Hle. unfold Rebuild.system_elapse.
    cbn [Rebuild.state Rebuild.written SRC.debouncer SRC.repo_cache].
    rewrite (armed_due_late wait _ t now _ Harmed Hle).
    cbn [fold_left Rebuild._on_debounced_update Rebuild.state Rebuild.written
         SRC.debouncer SRC.repo_cache].
    split_and!; [done| |done].
    by destruct (elapse_armed_late_idle wait _ t now _ Harmed Hle) as [? _].
Qed.

End Rebuilds.

Lemma modified_then_rebuilt_witness :
  idle (SRC.debouncer Scenario.state_a)
  ∧ ∃ st',
      SRC.on_modified Scenario.no_regex Scenario.cwd Scenario.handler
        Scenario.disk_echo 0 (SRC.FileSystemEvent "/r/a.js" false) Scenario.state_a
      = (Ok (), st')
      ∧ Rebuild.written
          (Rebuild.system_elapse (Raise OSError) (Ok ()) (λ _, Ok 0%nat)
             Scenario.handler 5
             {| Rebuild.state := st'; Rebuild.written := [] |})
        = [SRC.generate_markdown_output {[ "a.js" := "/r/a.js" ]} "/r"
             "Could not generate tree structure."].
Proof.
  assert (idle (SRC.debouncer Scenario.state_a)) as Hidle by constructor.
  split; [exact Hidle|].
  destruct (modified_then_rebuilt Scenario.no_regex Scenario.cwd Scenario.handler
              Scenario.disk_echo 0 (SRC.FileSystemEvent "/r/a.js" false) "a.js"
              "/r/a.js"
              {| Rebuild.state := Scenario.state_a; Rebuild.written := [] |}
              (Raise OSError) (Ok ()) (λ _, Ok 0%nat) Hidle)
    as (st' & Hrun & _ & _ & Hlate); [by vm_compute..|].
  exists st'. split; [exact Hrun|].
  destruct (Hlate 5%Q) as [Hwritten _]; [by vm_compute|].
  etrans; [exact Hwritten|]. by vm_compute.
Defined.
